(** * Grid reachability search ([maze_solver.py])

    A shallow embedding of [MazeSolver._heuristic], [MazeSolver._get_neighbors]
    and [MazeSolver.find_path], followed by the properties of the search that
    the specification states.

    Python integers are [Z]; a coordinate is a pair of integers; the maze is a
    list of rows.  The dictionary [g_score] is a [gmap], the set
    [open_set_hash] a [gset].  Indexing a list and looking a key up in a
    dictionary can raise, so both return a [result]. *)

From Stdlib Require Import ZArith List Lia Bool Sorted.
From stdpp Require Import base option list strings gmap sets fin_maps fin_sets.

Open Scope Z_scope.

(** ** Data model *)

Inductive exn : Type := IndexError | KeyError.

Inductive result (A : Type) : Type :=
| Ok (a : A)
| Raise (e : exn).
Arguments Ok {A} a.
Arguments Raise {A} e.

Definition bind {A B : Type} (r : result A) (k : A -> result B) : result B :=
  match r with
  | Ok a => k a
  | Raise e => Raise e
  end.

Notation "x <~ r ;; k" := (bind r (fun x => k))
  (at level 100, r at next level, right associativity).

Abbreviation Pos := (Z * Z)%type.
Abbreviation Maze := (list (list Z)).

(** A frontier entry is the tuple [(f_score, tie-breaker, position)]. *)
Abbreviation Entry := (Z * Z * Pos)%type.

(** [self.rows = len(self.maze)] and
    [self.cols = len(self.maze[0]) if self.rows > 0 else 0]. *)
Definition rows (maze : Maze) : Z := Z.of_nat (length maze).

Definition cols (maze : Maze) : Z :=
  match maze with
  | [] => 0
  | row0 :: _ => Z.of_nat (length row0)
  end.

(** Python's [l[i]]: a negative index counts from the end, anything outside
    [-len(l) <= i < len(l)] raises [IndexError]. *)
Definition py_index {A : Type} (l : list A) (i : Z) : result A :=
  let n := Z.of_nat (length l) in
  let j := if i <? 0 then i + n else i in
  if (0 <=? j) && (j <? n) then
    match l !! Z.to_nat j with
    | Some x => Ok x
    | None => Raise IndexError
    end
  else Raise IndexError.

(** [self.maze[r][c]] *)
Definition cell (maze : Maze) (r c : Z) : result Z :=
  row <~ py_index maze r ;; py_index row c.

(** [0 <= p[0] < self.rows and 0 <= p[1] < self.cols] *)
Definition in_bounds (maze : Maze) (p : Pos) : bool :=
  (0 <=? p.1) && (p.1 <? rows maze) && ((0 <=? p.2) && (p.2 <? cols maze)).

(** ** [_heuristic] *)

Definition _heuristic (pos goal : Pos) : Z :=
  Z.abs (pos.1 - goal.1) + Z.abs (pos.2 - goal.2).

(** ** [_get_neighbors] *)

Definition directions : list (Z * Z) := [(-1, 0); (1, 0); (0, -1); (0, 1)].

(** The body of [for dr, dc in directions], threaded over the list built so
    far. *)
Fixpoint neighbors_loop (maze : Maze) (row col : Z) (ds : list (Z * Z))
    (neighbors : list Pos) : result (list Pos) :=
  match ds with
  | [] => Ok neighbors
  | (dr, dc) :: ds' =>
      let new_row := row + dr in
      let new_col := col + dc in
      if in_bounds maze (new_row, new_col) then
        v <~ cell maze new_row new_col ;;
        if v =? 0 then
          neighbors_loop maze row col ds' (neighbors ++ [(new_row, new_col)])
        else neighbors_loop maze row col ds' neighbors
      else neighbors_loop maze row col ds' neighbors
  end.

Definition _get_neighbors (maze : Maze) (pos : Pos) : result (list Pos) :=
  neighbors_loop maze pos.1 pos.2 directions [].

(** ** The frontier

    [heapq] keeps [open_set] as a binary heap whose only observable behaviour
    is that [heappop] hands out the least tuple.  The model keeps the same
    tuples in ascending order: [heappush] inserts, [heappop] takes the head.
    Tuples compare lexicographically, as in Python. *)

Definition pos_ltb (a b : Pos) : bool :=
  (a.1 <? b.1) || ((a.1 =? b.1) && (a.2 <? b.2)).

Definition entry_ltb (a b : Entry) : bool :=
  let '(fa, ka, pa) := a in
  let '(fb, kb, pb) := b in
  (fa <? fb) || ((fa =? fb) && ((ka <? kb) || ((ka =? kb) && pos_ltb pa pb))).

Definition entry_leb (a b : Entry) : bool := negb (entry_ltb b a).

Fixpoint heappush (h : list Entry) (x : Entry) : list Entry :=
  match h with
  | [] => [x]
  | y :: h' => if entry_ltb x y then x :: h else y :: heappush h' x
  end.

Definition heappop (h : list Entry) : option (Entry * list Entry) :=
  match h with
  | [] => None
  | x :: h' => Some (x, h')
  end.

(** ** The search state of [find_path] *)

Record state : Type := State {
  open_set : list Entry;
  counter : Z;
  g_score : gmap Pos Z;
  open_set_hash : gset Pos;
  best_goal_cost : option Z
}.

(** The state built by lines 54-61, before the [while]. *)
Definition init_state (start : Pos) : state :=
  {| open_set := [(0, 0, start)];
     counter := 1;
     g_score := {[ start := 0 ]};
     open_set_hash := {[ start ]};
     best_goal_cost := None |}.

(** [neighbor not in g_score or tentative_g < g_score[neighbor]] *)
Definition improves (g : gmap Pos Z) (neighbor : Pos) (tentative_g : Z) : bool :=
  match g !! neighbor with
  | None => true
  | Some old => tentative_g <? old
  end.

(** The body of [for neighbor in self._get_neighbors(current)]. *)
Definition relax (end_ : Pos) (current_g : Z) (st : state) (neighbor : Pos)
    : state :=
  let tentative_g := current_g + 1 in
  if improves (g_score st) neighbor tentative_g then
    let g' := <[ neighbor := tentative_g ]> (g_score st) in
    let f := tentative_g + _heuristic neighbor end_ in
    if decide (neighbor ∈ open_set_hash st) then
      {| open_set := open_set st;
         counter := counter st;
         g_score := g';
         open_set_hash := open_set_hash st;
         best_goal_cost := best_goal_cost st |}
    else
      {| open_set := heappush (open_set st) (f, counter st, neighbor);
         counter := counter st + 1;
         g_score := g';
         open_set_hash := {[ neighbor ]} ∪ open_set_hash st;
         best_goal_cost := best_goal_cost st |}
  else st.

(** The goal check of lines 70-74. *)
Definition goal_check (end_ current : Pos) (current_g : Z) (best : option Z)
    : option Z :=
  if decide (current = end_) then
    match best with
    | None => Some current_g
    | Some b => Some (Z.min b current_g)
    end
  else best.

(** [best_goal_cost is not None and current_f >= best_goal_cost] *)
Definition stop_now (best : option Z) (current_f : Z) : bool :=
  match best with
  | None => false
  | Some b => current_f >=? b
  end.

Inductive step_result : Type :=
| Continue (st : state)
| Return (b : bool) (st : state)
| Throw (e : exn).

(** One evaluation of the [while] test followed by one pass through its
    body. *)
Definition iter (maze : Maze) (end_ : Pos) (st : state) : step_result :=
  match heappop (open_set st) with
  | None => Return false st
  | Some ((current_f, _, current), rest) =>
      let hash := open_set_hash st ∖ {[ current ]} in
      match g_score st !! current with
      | None => Throw KeyError
      | Some current_g =>
          let best := goal_check end_ current current_g (best_goal_cost st) in
          let st1 := {| open_set := rest;
                        counter := counter st;
                        g_score := g_score st;
                        open_set_hash := hash;
                        best_goal_cost := best |} in
          if stop_now best current_f then Return true st1
          else
            match _get_neighbors maze current with
            | Raise e => Throw e
            | Ok ns => Continue (fold_left (relax end_ current_g) ns st1)
            end
      end
  end.

(** What a call of [find_path] can come to.  [Finished b None] is a return
    from the input validation, before any search state exists;
    [Finished b (Some st)] is a return from the loop, with the state at that
    moment.  [OutOfFuel] belongs to the model only. *)
Inductive outcome : Type :=
| Finished (b : bool) (final : option state)
| Raised (e : exn)
| OutOfFuel.

Fixpoint search (fuel : nat) (maze : Maze) (end_ : Pos) (st : state) : outcome :=
  match fuel with
  | O => OutOfFuel
  | S fuel' =>
      match iter maze end_ st with
      | Continue st' => search fuel' maze end_ st'
      | Return b st' => Finished b (Some st')
      | Throw e => Raised e
      end
  end.

(** Lines 44-52.  [Ok (Some b)] is an immediate [return b]; [Ok None] falls
    through to the search.  The [or] of line 49 reads the cell at [end] only
    when the cell at [start] is not 1. *)
Definition validate (maze : Maze) (start end_ : Pos) : result (option bool) :=
  if negb (in_bounds maze start) then Ok (Some false)
  else if negb (in_bounds maze end_) then Ok (Some false)
  else
    vs <~ cell maze start.1 start.2 ;;
    if vs =? 1 then Ok (Some false)
    else
      ve <~ cell maze end_.1 end_.2 ;;
      if ve =? 1 then Ok (Some false)
      else if decide (start = end_) then Ok (Some true)
      else Ok None.

Definition find_path_fuel (fuel : nat) (maze : Maze) (start end_ : Pos)
    : outcome :=
  match validate maze start end_ with
  | Raise e => Raised e
  | Ok (Some b) => Finished b None
  | Ok None => search fuel maze end_ (init_state start)
  end.

(** A number of iterations no search on [maze] exceeds (see
    [search_terminates]). *)
Definition search_budget (maze : Maze) : nat :=
  Z.to_nat (2 * (rows maze * cols maze) * (rows maze * cols maze) + 2).

Definition find_path (maze : Maze) (start end_ : Pos) : outcome :=
  find_path_fuel (search_budget maze) maze start end_.

(** The boolean a caller of [find_path] sees. *)
Definition answer (o : outcome) : option bool :=
  match o with
  | Finished b _ => Some b
  | _ => None
  end.

(** The value of [best_goal_cost] when the call returns. *)
Definition recorded_cost (o : outcome) : option Z :=
  match o with
  | Finished _ (Some st) => best_goal_cost st
  | _ => None
  end.

(** ** Grids and paths, as the specification speaks of them *)

(** Every row is as long as the first one. *)
Definition rectangular (maze : Maze) : Prop :=
  Forall (fun row => Z.of_nat (length row) = cols maze) maze.

(** Every cell is 0 (open) or 1 (wall). *)
Definition binary (maze : Maze) : Prop :=
  Forall (Forall (fun v => v = 0 \/ v = 1)) maze.

(** An in-bounds cell holding 0. *)
Definition open_cell (maze : Maze) (p : Pos) : Prop :=
  in_bounds maze p = true /\ cell maze p.1 p.2 = Ok 0.

(** One step up, down, left or right. *)
Definition adjacent (a b : Pos) : Prop :=
  Z.abs (a.1 - b.1) + Z.abs (a.2 - b.2) = 1.

(** [path maze a b n]: [n] grid steps lead from [a] to [b] over open cells. *)
Inductive path (maze : Maze) : Pos -> Pos -> nat -> Prop :=
| path_here a : open_cell maze a -> path maze a a 0
| path_step a b c n :
    open_cell maze a -> adjacent a b -> path maze b c n ->
    path maze a c (S n).

Definition connected (maze : Maze) (a b : Pos) : Prop :=
  exists n, path maze a b n.

(** The four cells around [p], in the order of [directions]. *)
Definition candidates (p : Pos) : list Pos :=
  [(p.1 - 1, p.2); (p.1 + 1, p.2); (p.1, p.2 - 1); (p.1, p.2 + 1)].

(** In bounds and unoccupied, as a test. *)
Definition walkable (maze : Maze) (q : Pos) : bool :=
  in_bounds maze q &&
  match cell maze q.1 q.2 with
  | Ok v => v =? 0
  | Raise _ => false
  end.

Definition maze_small : Maze :=
  [ [1; 1; 1; 1];
    [1; 0; 0; 1];
    [1; 1; 1; 1] ].

(** ** The states the loop of [find_path] goes through *)

(** The coordinates held by the frontier entries. *)
Definition coords (h : list Entry) : list Pos := map snd h.

(** [loop_state maze start end_ st]: a call [find_path(start, end_)] passes
    its validation and finds [st] at the head of some iteration of the
    [while]. *)
Inductive loop_state (maze : Maze) (start end_ : Pos) : state -> Prop :=
| loop_enter :
    validate maze start end_ = Ok None ->
    loop_state maze start end_ (init_state start)
| loop_next st st' :
    loop_state maze start end_ st ->
    iter maze end_ st = Continue st' ->
    loop_state maze start end_ st'.

(** The state after [n] full iterations, if the loop gets that far. *)
Fixpoint iterate (n : nat) (maze : Maze) (end_ : Pos) (st : state)
    : option state :=
  match n with
  | O => Some st
  | S n' =>
      match iter maze end_ st with
      | Continue st' => iterate n' maze end_ st'
      | _ => None
      end
  end.

(** ** The simplified goal check of the specification's open question

    "Record on first pop of the goal": the recorded cost is set when it is
    still [None] and left alone afterwards.  Everything else is as in
    [iter], [search] and [find_path_fuel]. *)

Definition goal_check_first (end_ current : Pos) (current_g : Z)
    (best : option Z) : option Z :=
  if decide (current = end_) then
    match best with
    | None => Some current_g
    | Some b => Some b
    end
  else best.

Definition iter_first (maze : Maze) (end_ : Pos) (st : state) : step_result :=
  match heappop (open_set st) with
  | None => Return false st
  | Some ((current_f, _, current), rest) =>
      let hash := open_set_hash st ∖ {[ current ]} in
      match g_score st !! current with
      | None => Throw KeyError
      | Some current_g =>
          let best :=
            goal_check_first end_ current current_g (best_goal_cost st) in
          let st1 := {| open_set := rest;
                        counter := counter st;
                        g_score := g_score st;
                        open_set_hash := hash;
                        best_goal_cost := best |} in
          if stop_now best current_f then Return true st1
          else
            match _get_neighbors maze current with
            | Raise e => Throw e
            | Ok ns => Continue (fold_left (relax end_ current_g) ns st1)
            end
      end
  end.

Fixpoint search_first (fuel : nat) (maze : Maze) (end_ : Pos) (st : state)
    : outcome :=
  match fuel with
  | O => OutOfFuel
  | S fuel' =>
      match iter_first maze end_ st with
      | Continue st' => search_first fuel' maze end_ st'
      | Return b st' => Finished b (Some st')
      | Throw e => Raised e
      end
  end.

Definition find_path_first_fuel (fuel : nat) (maze : Maze) (start end_ : Pos)
    : outcome :=
  match validate maze start end_ with
  | Raise e => Raised e
  | Ok (Some b) => Finished b None
  | Ok None => search_first fuel maze end_ (init_state start)
  end.

(** ** Invariants of the loop *)

(** The membership set mirrors the frontier, no coordinate is queued twice,
    and every queued coordinate has a recorded cost. *)
Record frontier_inv (st : state) : Prop := {
  fi_hash : open_set_hash st = list_to_set (coords (open_set st));
  fi_nodup : NoDup (coords (open_set st));
  fi_keys : forall p, p ∈ coords (open_set st) -> is_Some (g_score st !! p)
}.

(** No goal cost is recorded yet, and an entry for the goal never carries an
    [f] below the goal's recorded cost. *)
Record goal_inv (end_ : Pos) (st : state) : Prop := {
  gi_best : best_goal_cost st = None;
  gi_entry : forall f k,
    (f, k, end_) ∈ open_set st ->
    exists g, g_score st !! end_ = Some g /\ g <= f
}.

(** Recorded costs belong to cells of the grid and stay below the number of
    recorded cells. *)
Record cost_ok (maze : Maze) (g : gmap Pos Z) : Prop := {
  ci_bounds : forall p v, g !! p = Some v -> in_bounds maze p = true;
  ci_range : forall p v, g !! p = Some v -> 0 <= v < Z.of_nat (size g)
}.

Definition cost_inv (maze : Maze) (st : state) : Prop :=
  cost_ok maze (g_score st).

(** Every cell of the grid, row by row. *)
Definition all_cells (maze : Maze) : list Pos :=
  r ← seqZ 0 (rows maze); (fun c => (r, c)) <$> seqZ 0 (cols maze).

(** The recorded cost of a cell, or [bound] when it has none. *)
Definition weight (bound : Z) (g : gmap Pos Z) (p : Pos) : Z :=
  default bound (g !! p).

Definition potential (bound : Z) (g : gmap Pos Z) (cells : list Pos) : Z :=
  foldr (fun p acc => weight bound g p + acc) 0 cells.

(** What strictly decreases with every iteration. *)
Definition measure (maze : Maze) (st : state) : Z :=
  2 * potential (rows maze * cols maze) (g_score st) (all_cells maze)
  + Z.of_nat (length (open_set st)).

(** What the search has established about reachability from [start]: every
    recorded cell is connected to [start]; a recorded cell other than
    [pending] is either queued or has all its open neighbours recorded; and
    the goal, once recorded, stays queued. *)
Record reach_inv (maze : Maze) (start end_ : Pos) (pending : option Pos)
    (st : state) : Prop := {
  ri_start : is_Some (g_score st !! start);
  ri_sound : forall p, is_Some (g_score st !! p) -> connected maze start p;
  ri_closed : forall p q,
    is_Some (g_score st !! p) -> Some p <> pending ->
    p ∉ open_set_hash st ->
    adjacent p q -> open_cell maze q -> is_Some (g_score st !! q);
  ri_goal : is_Some (g_score st !! end_) -> end_ ∈ open_set_hash st
}.

(** The invariants the reachability argument needs, together. *)
Definition search_inv_holds (maze : Maze) (start end_ : Pos) (st : state)
    : Prop :=
  frontier_inv st /\ goal_inv end_ st /\ reach_inv maze start end_ None st.


(** ** Concrete grids and walks *)

Definition adjacentb (a b : Pos) : bool :=
  Z.abs (a.1 - b.1) + Z.abs (a.2 - b.2) =? 1.

(** [is_walk maze a l]: starting on the open cell [a], the cells of [l] are
    open and each is one step from the one before. *)
Fixpoint is_walk (maze : Maze) (a : Pos) (l : list Pos) : bool :=
  match l with
  | [] => walkable maze a
  | b :: l' => walkable maze a && adjacentb a b && is_walk maze b l'
  end.

(** A 9 x 5 grid on which the frontier keeps a stale entry. *)
Definition maze9 : Maze :=
  [ [1; 1; 0; 0; 0];
    [1; 1; 0; 1; 1];
    [1; 1; 0; 1; 1];
    [1; 0; 0; 0; 0];
    [1; 0; 1; 1; 0];
    [0; 0; 0; 1; 0];
    [0; 1; 0; 0; 0];
    [0; 1; 1; 0; 1];
    [0; 0; 0; 0; 1] ].

(** Thirteen steps from (8,1) to (0,4) on [maze9]. *)
Definition walk9 : list Pos :=
  [(8, 0); (7, 0); (6, 0); (5, 0); (5, 1); (4, 1); (3, 1); (3, 2); (2, 2);
   (1, 2); (0, 2); (0, 3); (0, 4)].

(** The successive pops of a search, as [(current_f, current, current_g)],
    up to and including the pop on which it returns. *)
Fixpoint pops (fuel : nat) (maze : Maze) (end_ : Pos) (st : state)
    : list (Z * Pos * Z) :=
  match fuel with
  | O => []
  | S fuel' =>
      match open_set st with
      | [] => []
      | (current_f, _, current) :: _ =>
          (current_f, current, default 0 (g_score st !! current)) ::
          match iter maze end_ st with
          | Continue st' => pops fuel' maze end_ st'
          | _ => []
          end
      end
  end.

(** ** Further grids used as instances *)

(** A grid whose second row is empty, as a blank line of the maze file
    leaves it. *)
Definition maze_ragged : Maze := [ [0; 0]; [] ].

(** The tie-breakers (second components) of the frontier entries. *)
Definition tiebreakers (h : list Entry) : list Z := map (fun e => e.1.2) h.

(** One step into an open cell; the cell stepped from is not looked at. *)
Definition step_into (maze : Maze) (p q : Pos) : Prop :=
  adjacent p q /\ open_cell maze q.

(** [trail maze a b]: [b] is reached from [a] by steps into open cells,
    whatever the cell at [a] holds. *)
Definition trail (maze : Maze) (a b : Pos) : Prop := rtc (step_into maze) a b.

(** A rectangular grid with a cell that is neither 0 nor 1. *)
Definition maze_odd : Maze := [ [2; 0]; [1; 0] ].

(** A grid cut in two by a wall. *)
Definition maze_split : Maze := [ [0; 1; 0] ].

(** A grid whose first row is empty. *)
Definition maze_hollow : Maze := [ []; [0] ].

(** The reachability invariant again, for grids that need not be binary:
    every recorded cell is reached from [start] by steps into open cells. *)
Record trail_inv (maze : Maze) (start end_ : Pos) (pending : option Pos)
    (st : state) : Prop := {
  ti_start : is_Some (g_score st !! start);
  ti_sound : forall p, is_Some (g_score st !! p) -> trail maze start p;
  ti_closed : forall p q,
    is_Some (g_score st !! p) -> Some p <> pending ->
    p ∉ open_set_hash st ->
    adjacent p q -> open_cell maze q -> is_Some (g_score st !! q);
  ti_goal : is_Some (g_score st !! end_) -> end_ ∈ open_set_hash st
}.

Definition trail_inv_holds (maze : Maze) (start end_ : Pos) (st : state)
    : Prop :=
  frontier_inv st /\ goal_inv end_ st /\ trail_inv maze start end_ None st.

(** ** [_load_maze]

    The file is taken as the list of lines that [for line in f] yields.
    Python's [str.strip], [str.split] and [int] are parameters: [split] is
    [line.strip().split()], and [int] gives [None] where Python's [int]
    raises [ValueError].  The loader gives [None] when that exception
    leaves it. *)

(** [[int(x) for x in tokens]] *)
Fixpoint parse_tokens (int : string -> option Z) (tokens : list string)
    : option (list Z) :=
  match tokens with
  | [] => Some []
  | x :: tokens' =>
      match int x with
      | None => None
      | Some v =>
          match parse_tokens int tokens' with
          | None => None
          | Some row => Some (v :: row)
          end
      end
  end.

(** The body of [for line in f], threaded over the maze built so far. *)
Fixpoint load_lines (split : string -> list string)
    (int : string -> option Z) (lines : list string) (maze : Maze)
    : option Maze :=
  match lines with
  | [] => Some maze
  | line :: lines' =>
      match parse_tokens int (split line) with
      | None => None
      | Some row => load_lines split int lines' (maze ++ [row])
      end
  end.

Definition _load_maze (split : string -> list string)
    (int : string -> option Z) (lines : list string) : option Maze :=
  load_lines split int lines [].

(** A stand-in for [int] on the two tokens of a maze file, and a stand-in
    for [split] on lines of one token, used to instantiate the loader. *)
Definition int01 (x : string) : option Z :=
  if String.eqb x "0"%string then Some 0
  else if String.eqb x "1"%string then Some 1
  else None.

Definition one_token (line : string) : list string :=
  if String.eqb line EmptyString then [] else [line].

(** ** Reading cells of a rectangular grid *)

Lemma py_index_Ok {A : Type} (l : list A) (i : Z) :
  0 <= i < Z.of_nat (length l) ->
  exists x, py_index l i = Ok x /\ l !! Z.to_nat i = Some x.
Proof.
  intros Hi. unfold py_index.
  destruct (i <? 0) eqn:Hneg; [apply Z.ltb_lt in Hneg; lia|].
  replace ((0 <=? i) && (i <? Z.of_nat (length l))) with true
    by (symmetry; apply andb_true_iff; split;
        [apply Z.leb_le | apply Z.ltb_lt]; lia).
  destruct (l !! Z.to_nat i) as [x|] eqn:Hl; [eauto|].
  apply lookup_ge_None in Hl. lia.
Qed.

Lemma in_bounds_spec (maze : Maze) (p : Pos) :
  in_bounds maze p = true <->
  0 <= p.1 < rows maze /\ 0 <= p.2 < cols maze.
Proof.
  unfold in_bounds. rewrite !andb_true_iff, !Z.leb_le, !Z.ltb_lt. lia.
Qed.

Lemma cell_in_bounds (maze : Maze) (p : Pos) :
  rectangular maze -> in_bounds maze p = true ->
  exists v, cell maze p.1 p.2 = Ok v.
Proof.
  intros Hrect [Hr Hc]%in_bounds_spec. unfold cell, rows in *.
  destruct (py_index_Ok maze p.1 Hr) as (row & -> & Hrow). simpl.
  assert (Z.of_nat (length row) = cols maze) as Hlen.
  { unfold rectangular in Hrect. rewrite Forall_forall in Hrect.
    apply Hrect. eapply list_elem_of_lookup_2, Hrow. }
  destruct (py_index_Ok row p.2) as (v & -> & _); [lia | eauto].
Qed.

Lemma cell_binary (maze : Maze) (r c v : Z) :
  binary maze -> 0 <= r -> 0 <= c -> cell maze r c = Ok v -> v = 0 \/ v = 1.
Proof.
  intros Hbin Hr Hc. unfold cell, py_index.
  destruct (r <? 0) eqn:Hneg; [apply Z.ltb_lt in Hneg; lia|].
  destruct ((0 <=? r) && (r <? Z.of_nat (length maze))); [|discriminate].
  destruct (maze !! Z.to_nat r) as [row|] eqn:Hrow; [|discriminate]. simpl.
  destruct (c <? 0) eqn:Hnegc; [apply Z.ltb_lt in Hnegc; lia|].
  destruct ((0 <=? c) && (c <? Z.of_nat (length row))); [|discriminate].
  destruct (row !! Z.to_nat c) as [x|] eqn:Hx; [|discriminate].
  intros [= <-].
  unfold binary in Hbin. rewrite Forall_forall in Hbin.
  specialize (Hbin row). rewrite Forall_forall in Hbin.
  apply Hbin; eapply list_elem_of_lookup_2; eauto.
Qed.

(** ** The heuristic *)

(** C9: the heuristic is the Manhattan distance
    [|a.row - b.row| + |a.col - b.col|]; it is symmetric, zero on equal
    coordinates and never negative. *)
Theorem heuristic_manhattan (a b : Pos) :
  _heuristic a b = Z.abs (a.1 - b.1) + Z.abs (a.2 - b.2) /\
  _heuristic a b = _heuristic b a /\
  _heuristic a a = 0 /\
  0 <= _heuristic a b.
Proof.
  unfold _heuristic. repeat split; lia.
Qed.

(** ** The neighbor enumerator *)

Lemma walkable_spec (maze : Maze) (q : Pos) :
  walkable maze q = true <-> open_cell maze q.
Proof.
  unfold walkable, open_cell. rewrite andb_true_iff.
  destruct (cell maze q.1 q.2) as [v|e].
  - rewrite Z.eqb_eq. split; intros [? Hv]; split; congruence.
  - split; intros [_ ?]; discriminate.
Qed.

Lemma neighbors_loop_filter (maze : Maze) (row col : Z) (ds : list (Z * Z))
    (acc : list Pos) :
  rectangular maze ->
  neighbors_loop maze row col ds acc =
  Ok (acc ++ List.filter (walkable maze)
                         (map (fun d => (row + d.1, col + d.2)) ds)).
Proof.
  intros Hrect. revert acc.
  induction ds as [|[dr dc] ds IH]; intros acc; simpl.
  - by rewrite app_nil_r.
  - unfold walkable at 1. simpl.
    destruct (in_bounds maze (row + dr, col + dc)) eqn:Hb; simpl; [|apply IH].
    destruct (cell_in_bounds maze (row + dr, col + dc) Hrect Hb) as [v Hv].
    simpl in Hv. rewrite Hv. simpl.
    destruct (v =? 0) eqn:Hz; [|apply IH].
    rewrite IH, <- app_assoc. done.
Qed.

Lemma get_neighbors_filter (maze : Maze) (p : Pos) :
  rectangular maze ->
  _get_neighbors maze p = Ok (List.filter (walkable maze) (candidates p)).
Proof.
  intros Hrect. unfold _get_neighbors.
  rewrite neighbors_loop_filter by done.
  rewrite app_nil_l. do 2 f_equal.
  unfold directions, candidates. cbn [map fst snd].
  repeat f_equal; lia.
Qed.

Lemma NoDup_candidates (p : Pos) : NoDup (candidates p).
Proof.
  unfold candidates.
  repeat (apply NoDup_cons; split;
          [rewrite ?elem_of_cons, elem_of_nil; intros H;
           repeat (destruct H as [H|H]; [inversion H; lia|]); done|]).
  apply NoDup_nil_2.
Qed.

Lemma elem_of_candidates (p q : Pos) : q ∈ candidates p <-> adjacent p q.
Proof.
  destruct p as [r c], q as [r' c']. unfold candidates, adjacent. simpl.
  rewrite !elem_of_cons, elem_of_nil. split.
  - intros [H|[H|[H|[H|[]]]]]; inversion H; lia.
  - intros H.
    assert ((r' = r - 1 /\ c' = c) \/ (r' = r + 1 /\ c' = c) \/
            (r' = r /\ c' = c - 1) \/ (r' = r /\ c' = c + 1)) as Hc by lia.
    destruct Hc as [[-> ->]|[[-> ->]|[[-> ->]|[-> ->]]]]; auto.
Qed.

Lemma elem_of_get_neighbors (maze : Maze) (p q : Pos) (ns : list Pos) :
  rectangular maze -> _get_neighbors maze p = Ok ns ->
  q ∈ ns <-> adjacent p q /\ open_cell maze q.
Proof.
  intros Hrect Hns.
  assert (ns = List.filter (walkable maze) (candidates p)) as ->
    by (rewrite get_neighbors_filter in Hns by done; congruence).
  rewrite list_elem_of_In, filter_In, <- list_elem_of_In.
  by rewrite elem_of_candidates, walkable_spec.
Qed.

(** C8: on a rectangular binary grid the enumerator looks at the four
    offsets (-1,0), (1,0), (0,-1), (0,1) in this order and keeps exactly the
    results that are in bounds and unoccupied; so it returns at most four
    coordinates, none out of bounds or occupied, none twice. *)
Theorem get_neighbors_contract (maze : Maze) (r c : Z) :
  rectangular maze -> binary maze ->
  exists ns,
    _get_neighbors maze (r, c) = Ok ns /\
    ns = List.filter (walkable maze)
                     [(r - 1, c); (r + 1, c); (r, c - 1); (r, c + 1)] /\
    (length ns <= 4)%nat /\
    (forall q, q ∈ ns ->
       in_bounds maze q = true /\ cell maze q.1 q.2 = Ok 0 /\
       cell maze q.1 q.2 <> Ok 1) /\
    NoDup ns.
Proof.
  intros Hrect _. eexists. split; [by apply get_neighbors_filter|].
  split; [done|]. split; [|split].
  - etrans; [apply List.filter_length_le|]. done.
  - intros q [_ Hq]%list_elem_of_In%filter_In.
    apply walkable_spec in Hq as [? Hq]. rewrite Hq. done.
  - apply NoDup_ListNoDup, List.NoDup_filter, NoDup_ListNoDup.
    apply (NoDup_candidates (r, c)).
Qed.

Lemma get_neighbors_contract_witness :
  exists ns,
    _get_neighbors maze_small (1, 1) = Ok ns /\
    ns = List.filter (walkable maze_small)
                     [(1 - 1, 1); (1 + 1, 1); (1, 1 - 1); (1, 1 + 1)] /\
    (length ns <= 4)%nat /\
    (forall q, q ∈ ns ->
       in_bounds maze_small q = true /\ cell maze_small q.1 q.2 = Ok 0 /\
       cell maze_small q.1 q.2 <> Ok 1) /\
    NoDup ns.
Proof.
  apply (get_neighbors_contract maze_small 1 1).
  - repeat constructor.
  - repeat (constructor; [repeat (constructor; [by (left + right)|])|]);
      constructor.
Defined.

(** ** The frontier *)

Lemma heappush_perm (h : list Entry) (x : Entry) : heappush h x ≡ₚ x :: h.
Proof.
  induction h as [|y h IH]; simpl; [done|].
  destruct (entry_ltb x y); [done|].
  rewrite IH. apply Permutation_swap.
Qed.

Lemma elem_of_heappush (h : list Entry) (x e : Entry) :
  e ∈ heappush h x <-> e = x \/ e ∈ h.
Proof. by rewrite heappush_perm, elem_of_cons. Qed.

Lemma coords_heappush (h : list Entry) (x : Entry) :
  coords (heappush h x) ≡ₚ x.2 :: coords h.
Proof.
  unfold coords. change (x.2 :: map snd h) with (map snd (x :: h)).
  apply Permutation_map, heappush_perm.
Qed.

Lemma length_heappush (h : list Entry) (x : Entry) :
  length (heappush h x) = S (length h).
Proof. by rewrite heappush_perm. Qed.

(** The model of the heap is sound for [heappop]: pushing keeps the entries
    in ascending order, so the head is a least entry. *)

Lemma entry_ltb_leb (a b : Entry) : entry_ltb a b = true -> entry_leb a b = true.
Proof.
  destruct a as [[fa ka] [ra ca]], b as [[fb kb] [rb cb]].
  unfold entry_leb, entry_ltb, pos_ltb; simpl.
  rewrite negb_true_iff.
  rewrite !orb_true_iff, !andb_true_iff, !orb_true_iff, !andb_true_iff,
    !Z.ltb_lt, !Z.eqb_eq.
  intros H. apply not_true_is_false.
  rewrite !orb_true_iff, !andb_true_iff, !orb_true_iff, !andb_true_iff,
    !Z.ltb_lt, !Z.eqb_eq. lia.
Qed.

Lemma entry_leb_trans (a b c : Entry) :
  entry_leb a b = true -> entry_leb b c = true -> entry_leb a c = true.
Proof.
  destruct a as [[fa ka] [ra ca]], b as [[fb kb] [rb cb]],
    c as [[fc kc] [rc cc]].
  unfold entry_leb, entry_ltb, pos_ltb; simpl.
  rewrite !negb_true_iff. intros H1 H2.
  apply not_true_iff_false in H1, H2. apply not_true_is_false.
  revert H1 H2.
  rewrite !orb_true_iff, !andb_true_iff, !orb_true_iff, !andb_true_iff,
    !Z.ltb_lt, !Z.eqb_eq. lia.
Qed.

Lemma heappush_sorted (h : list Entry) (x : Entry) :
  StronglySorted (fun a b => entry_leb a b = true) h ->
  StronglySorted (fun a b => entry_leb a b = true) (heappush h x).
Proof.
  induction 1 as [|y h Hs IH Hall]; simpl.
  - repeat constructor.
  - destruct (entry_ltb x y) eqn:Hlt.
    + constructor; [by constructor|].
      apply entry_ltb_leb in Hlt. constructor; [done|].
      eapply Forall_impl; [exact Hall|]. intros z Hz.
      eapply entry_leb_trans; eauto.
    + constructor; [done|].
      rewrite Forall_forall. intros z [->|Hz]%elem_of_heappush.
      * unfold entry_leb. by rewrite Hlt.
      * rewrite Forall_forall in Hall. auto.
Qed.

Lemma heappop_least (h rest : list Entry) (x : Entry) :
  StronglySorted (fun a b => entry_leb a b = true) h ->
  heappop h = Some (x, rest) ->
  h ≡ₚ x :: rest /\ forall y, y ∈ rest -> entry_leb x y = true.
Proof.
  intros Hs. destruct h as [|y h]; [done|]. intros [= -> ->].
  split; [done|]. apply StronglySorted_inv in Hs as [_ Hall].
  by rewrite Forall_forall in Hall.
Qed.

(** ** The frontier invariant *)

Lemma fold_left_preserves {A B : Type} (P : A -> Prop) (Q : B -> Prop)
    (f : A -> B -> A) (l : list B) (a : A) :
  (forall a b, Q b -> P a -> P (f a b)) ->
  Forall Q l -> P a -> P (fold_left f l a).
Proof.
  intros Hf Hl. revert a.
  induction Hl as [|b l Hb _ IH]; intros a Ha; simpl; auto.
Qed.

(** The three shapes a relaxation can take. *)
Lemma relax_cases (end_ : Pos) (current_g : Z) (st : state) (n : Pos) :
  (improves (g_score st) n (current_g + 1) = false /\
   relax end_ current_g st n = st) \/
  (improves (g_score st) n (current_g + 1) = true /\
   n ∈ open_set_hash st /\
   relax end_ current_g st n =
     {| open_set := open_set st;
        counter := counter st;
        g_score := <[ n := current_g + 1 ]> (g_score st);
        open_set_hash := open_set_hash st;
        best_goal_cost := best_goal_cost st |}) \/
  (improves (g_score st) n (current_g + 1) = true /\
   (n ∉ open_set_hash st) /\
   relax end_ current_g st n =
     {| open_set :=
          heappush (open_set st)
            (current_g + 1 + _heuristic n end_, counter st, n);
        counter := counter st + 1;
        g_score := <[ n := current_g + 1 ]> (g_score st);
        open_set_hash := {[ n ]} ∪ open_set_hash st;
        best_goal_cost := best_goal_cost st |}).
Proof.
  unfold relax. destruct (improves _ _ _); [|by left].
  destruct (decide (n ∈ open_set_hash st)); [right; left|right; right]; done.
Qed.

Lemma frontier_inv_init (start : Pos) : frontier_inv (init_state start).
Proof.
  split; simpl.
  - by rewrite union_empty_r_L.
  - apply NoDup_singleton.
  - intros p ->%list_elem_of_singleton. by rewrite lookup_singleton_eq.
Qed.

Lemma frontier_inv_relax (end_ : Pos) (current_g : Z) (st : state) (n : Pos) :
  frontier_inv st -> frontier_inv (relax end_ current_g st n).
Proof.
  intros [Hh Hnd Hk].
  destruct (relax_cases end_ current_g st n)
    as [[_ ->]|[(_ & Hin & ->)|(_ & Hin & ->)]]; [done| |]; split; simpl.
  - done.
  - done.
  - intros p Hp. rewrite lookup_insert_is_Some. destruct (decide (n = p)); auto.
  - rewrite coords_heappush. simpl. by rewrite Hh.
  - rewrite coords_heappush. simpl. apply NoDup_cons. split; [|done].
    rewrite Hh, elem_of_list_to_set in Hin. done.
  - intros p. rewrite coords_heappush. simpl.
    rewrite elem_of_cons, lookup_insert_is_Some.
    intros [->|Hp]; [by left|]. destruct (decide (n = p)); auto.
Qed.

(** What [iter] does when it goes on: it pops an entry other than a stopping
    one and relaxes the neighbours of its coordinate. *)
Lemma iter_Continue (maze : Maze) (end_ : Pos) (st st' : state) :
  iter maze end_ st = Continue st' ->
  exists current_f k current rest current_g ns,
    open_set st = (current_f, k, current) :: rest /\
    g_score st !! current = Some current_g /\
    stop_now (goal_check end_ current current_g (best_goal_cost st))
      current_f = false /\
    _get_neighbors maze current = Ok ns /\
    st' = fold_left (relax end_ current_g) ns
            {| open_set := rest;
               counter := counter st;
               g_score := g_score st;
               open_set_hash := open_set_hash st ∖ {[ current ]};
               best_goal_cost :=
                 goal_check end_ current current_g (best_goal_cost st) |}.
Proof.
  unfold iter. destruct (open_set st) as [|[[f k] cur] rest]; [done|]. simpl.
  destruct (g_score st !! cur) as [g|] eqn:Hg; [|done].
  destruct (stop_now _ _) eqn:Hstop; [done|].
  destruct (_get_neighbors maze cur) as [ns|] eqn:Hns; [|done].
  intros [= <-]. by exists f, k, cur, rest, g, ns.
Qed.

Lemma frontier_inv_pop (st : state) (f k : Z) (current : Pos)
    (rest : list Entry) (best : option Z) :
  frontier_inv st -> open_set st = (f, k, current) :: rest ->
  frontier_inv {| open_set := rest;
                  counter := counter st;
                  g_score := g_score st;
                  open_set_hash := open_set_hash st ∖ {[ current ]};
                  best_goal_cost := best |}.
Proof.
  intros [Hh Hnd Hk] Hopen. rewrite Hopen in *. simpl in *.
  apply NoDup_cons in Hnd as [Hnotin Hnd].
  split; simpl; [|done|].
  - rewrite Hh. apply set_eq. intros p.
    rewrite elem_of_difference, elem_of_union, !elem_of_list_to_set,
      elem_of_singleton.
    split; [intros [[->|?] ?]; done|].
    intros Hp. split; [by right|]. by intros ->.
  - intros p Hp. apply Hk. by right.
Qed.

Lemma frontier_inv_iter (maze : Maze) (end_ : Pos) (st st' : state) :
  frontier_inv st -> iter maze end_ st = Continue st' -> frontier_inv st'.
Proof.
  intros Hinv (f & k & cur & rest & g & ns & Hopen & _ & _ & _ & ->)%iter_Continue.
  apply (fold_left_preserves frontier_inv (fun _ => True)).
  - intros. by apply frontier_inv_relax.
  - by apply Forall_true.
  - by eapply frontier_inv_pop.
Qed.

Lemma relax_sorted (end_ : Pos) (current_g : Z) (st : state) (n : Pos) :
  StronglySorted (fun a b => entry_leb a b = true) (open_set st) ->
  StronglySorted (fun a b => entry_leb a b = true)
    (open_set (relax end_ current_g st n)).
Proof.
  intros Hs.
  destruct (relax_cases end_ current_g st n)
    as [[_ ->]|[(_ & _ & ->)|(_ & _ & ->)]]; simpl; [done..|].
  by apply heappush_sorted.
Qed.

(** In every state of the loop the frontier is in ascending order, so what
    [iter] pops is the least entry, as [heapq.heappop] has it. *)
Lemma loop_state_pops_least (maze : Maze) (start end_ : Pos) (st : state)
    (x : Entry) (rest : list Entry) :
  loop_state maze start end_ st ->
  heappop (open_set st) = Some (x, rest) ->
  forall y, y ∈ rest -> entry_leb x y = true.
Proof.
  intros Hst Hpop.
  cut (StronglySorted (fun a b => entry_leb a b = true) (open_set st)).
  { intros Hs. by destruct (heappop_least _ _ _ Hs Hpop). }
  clear Hpop. induction Hst as [|st st' _ IH Hiter].
  - repeat constructor.
  - apply iter_Continue in Hiter
      as (f & k & cur & rest' & g & ns & Hopen & _ & _ & _ & ->).
    apply (fold_left_preserves
             (fun s => StronglySorted (fun a b => entry_leb a b = true)
                         (open_set s)) (fun _ => True)).
    + intros. by apply relax_sorted.
    + by apply Forall_true.
    + simpl. rewrite Hopen in IH. by apply StronglySorted_inv in IH as [? _].
Qed.

Lemma loop_state_frontier (maze : Maze) (start end_ : Pos) (st : state) :
  loop_state maze start end_ st -> frontier_inv st.
Proof.
  induction 1 as [|st st' _ IH Hiter].
  - apply frontier_inv_init.
  - by eapply frontier_inv_iter.
Qed.

(** C10: at the head of every iteration [open_set_hash] is the set of
    coordinates of the entries of [open_set], no coordinate occurs in two
    entries, and every such coordinate is a key of [g_score], so the lookup
    [g_score[current]] after the pop does not fail. *)
Theorem frontier_invariant (maze : Maze) (start end_ : Pos) (st : state) :
  loop_state maze start end_ st ->
  open_set_hash st = list_to_set (coords (open_set st)) /\
  NoDup (coords (open_set st)) /\
  (forall p, p ∈ coords (open_set st) -> p ∈ dom (g_score st)) /\
  (forall e rest, heappop (open_set st) = Some (e, rest) ->
     exists current_g, g_score st !! e.2 = Some current_g) /\
  iter maze end_ st <> Throw KeyError.
Proof.
  intros [Hh Hnd Hk]%loop_state_frontier.
  split; [done|]. split; [done|]. split; [|split].
  - intros p Hp. apply elem_of_dom. auto.
  - intros e rest Hpop. destruct (open_set st) as [|e' h] eqn:Hopen; [done|].
    injection Hpop as -> ->. apply Hk. simpl. by left.
  - unfold iter. destruct (open_set st) as [|[[f k] cur] rest] eqn:Hopen; [done|].
    simpl. destruct (Hk cur) as [g ->]; [simpl; by left|].
    destruct (stop_now _ _); [done|].
    destruct (_get_neighbors maze cur) as [ns|e] eqn:Hns; [done|].
    intros [= ->]. revert Hns. unfold _get_neighbors.
    generalize (@nil Pos). generalize directions.
    induction l as [|[dr dc] ds IH]; intros acc; simpl; [done|].
    destruct (in_bounds _ _); [|apply IH].
    unfold cell, bind, py_index.
    repeat match goal with
           | |- context [if ?b then _ else _] => destruct b
           | |- context [match ?l !! ?i with _ => _ end] => destruct (l !! i)
           end; try done; apply IH.
Qed.

Lemma frontier_invariant_witness :
  open_set_hash (init_state (1, 1)) =
    list_to_set (coords (open_set (init_state (1, 1)))) /\
  NoDup (coords (open_set (init_state (1, 1)))) /\
  (forall p, p ∈ coords (open_set (init_state (1, 1))) ->
     p ∈ dom (g_score (init_state (1, 1)))) /\
  (forall e rest, heappop (open_set (init_state (1, 1))) = Some (e, rest) ->
     exists current_g, g_score (init_state (1, 1)) !! e.2 = Some current_g) /\
  iter maze_small (1, 2) (init_state (1, 1)) <> Throw KeyError.
Proof.
  apply (frontier_invariant maze_small (1, 1) (1, 2)).
  apply loop_enter. vm_compute. reflexivity.
Defined.

(** ** The goal is popped at most once *)

Lemma validate_enters (maze : Maze) (start end_ : Pos) :
  validate maze start end_ = Ok None ->
  in_bounds maze start = true /\ in_bounds maze end_ = true /\
  (exists vs, cell maze start.1 start.2 = Ok vs /\ vs <> 1) /\
  (exists ve, cell maze end_.1 end_.2 = Ok ve /\ ve <> 1) /\
  start <> end_.
Proof.
  unfold validate.
  destruct (in_bounds maze start); [|done].
  destruct (in_bounds maze end_); [|done]. simpl.
  destruct (cell maze start.1 start.2) as [vs|]; [|done]. simpl.
  destruct (vs =? 1) eqn:Hvs; [done|].
  destruct (cell maze end_.1 end_.2) as [ve|]; [|done]. simpl.
  destruct (ve =? 1) eqn:Hve; [done|].
  destruct (decide (start = end_)); [done|]. intros _.
  apply Z.eqb_neq in Hvs, Hve. eauto 10.
Qed.

Lemma goal_inv_init (start end_ : Pos) :
  start <> end_ -> goal_inv end_ (init_state start).
Proof.
  intros Hne. split; simpl; [done|].
  intros f k [=]%list_elem_of_singleton. congruence.
Qed.

Lemma goal_inv_relax (end_ : Pos) (current_g : Z) (st : state) (n : Pos) :
  goal_inv end_ st -> goal_inv end_ (relax end_ current_g st n).
Proof.
  intros [Hb He].
  assert (forall f k, (f, k, end_) ∈ open_set st ->
            exists g, <[ n := current_g + 1 ]> (g_score st) !! end_ = Some g
                      /\ g <= f \/
            improves (g_score st) n (current_g + 1) = false) as Hold.
  { intros f k (g & Hg & Hle)%He.
    destruct (decide (n = end_)) as [->|Hne].
    - unfold improves. rewrite Hg, lookup_insert_eq.
      destruct (current_g + 1 <? g) eqn:Hlt.
      + apply Z.ltb_lt in Hlt. exists (current_g + 1). left. split; [done|lia].
      + exists g. by right.
    - exists g. left. by rewrite lookup_insert_ne. }
  destruct (relax_cases end_ current_g st n)
    as [[_ ->]|[(Himp & _ & ->)|(Himp & _ & ->)]]; [done| |];
    split; simpl; try done.
  - intros f k Hin. destruct (Hold f k Hin) as (g & [?|?]); [eauto|congruence].
  - intros f k [[= -> _ <-]|Hin]%elem_of_heappush.
    + exists (current_g + 1). rewrite lookup_insert_eq. split; [done|].
      unfold _heuristic. lia.
    + destruct (Hold f k Hin) as (g & [?|?]); [eauto|congruence].
Qed.

(** Popping the goal ends the search at once. *)
Lemma goal_inv_pop_goal (maze : Maze) (end_ : Pos) (st : state) (f k : Z)
    (rest : list Entry) :
  goal_inv end_ st -> open_set st = (f, k, end_) :: rest ->
  exists st', iter maze end_ st = Return true st'.
Proof.
  intros [Hb He] Hopen.
  destruct (He f k) as (g & Hg & Hle); [rewrite Hopen; by left|].
  unfold iter. rewrite Hopen. simpl. rewrite Hg, Hb.
  unfold goal_check. rewrite decide_True by done. simpl.
  replace (f >=? g) with true by (symmetry; apply Z.geb_le; lia).
  eauto.
Qed.

Lemma goal_inv_iter (maze : Maze) (end_ : Pos) (st st' : state) :
  goal_inv end_ st -> iter maze end_ st = Continue st' -> goal_inv end_ st'.
Proof.
  intros Hinv Hiter.
  pose proof Hiter as
    (f & k & cur & rest & g & ns & Hopen & Hg & Hstop & _ & ->)%iter_Continue.
  assert (cur <> end_) as Hne.
  { intros ->. destruct (goal_inv_pop_goal maze end_ st f k rest) as [? Hret];
      [done..|]. congruence. }
  apply (fold_left_preserves (goal_inv end_) (fun _ => True)).
  - intros. by apply goal_inv_relax.
  - by apply Forall_true.
  - destruct Hinv as [Hb He]. split; simpl.
    + unfold goal_check. by rewrite decide_False.
    + intros f' k' Hin. apply (He f' k'). rewrite Hopen. by right.
Qed.

Lemma loop_state_goal (maze : Maze) (start end_ : Pos) (st : state) :
  loop_state maze start end_ st -> goal_inv end_ st.
Proof.
  induction 1 as [Hval|st st' _ IH Hiter].
  - apply goal_inv_init. by apply validate_enters in Hval as (_ & _ & _ & _ & ?).
  - by eapply goal_inv_iter.
Qed.

Lemma iter_first_eq (maze : Maze) (end_ : Pos) (st : state) :
  best_goal_cost st = None -> iter_first maze end_ st = iter maze end_ st.
Proof.
  intros Hb. unfold iter_first, iter, goal_check_first, goal_check.
  by rewrite Hb.
Qed.

Lemma search_first_eq (fuel : nat) (maze : Maze) (end_ : Pos) (st : state) :
  goal_inv end_ st -> search_first fuel maze end_ st = search fuel maze end_ st.
Proof.
  revert st. induction fuel as [|fuel IH]; intros st Hinv; simpl; [done|].
  rewrite iter_first_eq by apply Hinv.
  destruct (iter maze end_ st) as [st'| |] eqn:Hiter; [|done..].
  apply IH. by eapply goal_inv_iter.
Qed.

(** C4: recording the goal cost on the first pop of the goal only gives the
    same result as the implemented minimum with the prior record, for every
    grid and query: at the head of every iteration no goal cost is recorded
    (so the branch taking the minimum is never run), because an iteration
    that pops the goal returns true at its termination check. *)
Theorem first_pop_equivalent (maze : Maze) (start end_ : Pos) :
  (forall fuel,
     find_path_first_fuel fuel maze start end_ =
     find_path_fuel fuel maze start end_) /\
  (forall st, loop_state maze start end_ st ->
     best_goal_cost st = None /\
     forall f k rest, open_set st = (f, k, end_) :: rest ->
       exists st', iter maze end_ st = Return true st').
Proof.
  split.
  - intros fuel. unfold find_path_first_fuel, find_path_fuel.
    destruct (validate maze start end_) as [[b|]|e] eqn:Hval; [done| |done].
    apply search_first_eq, goal_inv_init.
    by apply validate_enters in Hval as (_ & _ & _ & _ & ?).
  - intros st Hst%loop_state_goal. split; [apply Hst|].
    intros f k rest. by apply goal_inv_pop_goal.
Qed.

(** ** Termination *)

Lemma elem_of_all_cells (maze : Maze) (p : Pos) :
  p ∈ all_cells maze <-> in_bounds maze p = true.
Proof.
  unfold all_cells. rewrite list_elem_of_bind, in_bounds_spec. split.
  - intros (r & (c & -> & Hc%elem_of_seqZ)%list_elem_of_fmap & Hr%elem_of_seqZ).
    simpl. lia.
  - destruct p as [r c]. simpl. intros [Hr Hc]. exists r. split.
    + apply list_elem_of_fmap. exists c. split; [done|].
      apply elem_of_seqZ. lia.
    + apply elem_of_seqZ. lia.
Qed.

Lemma NoDup_all_cells (maze : Maze) : NoDup (all_cells maze).
Proof.
  unfold all_cells. apply NoDup_bind.
  - intros r1 r2 p _ _ (c1 & -> & _)%list_elem_of_fmap
      (c2 & [= -> _] & _)%list_elem_of_fmap. done.
  - intros r _. apply NoDup_fmap_2; [|apply NoDup_seqZ].
    intros c1 c2 [= ->]. done.
  - apply NoDup_seqZ.
Qed.

Lemma length_all_cells (maze : Maze) :
  Z.of_nat (length (all_cells maze)) = rows maze * cols maze.
Proof.
  unfold all_cells.
  assert (0 <= cols maze) as Hc by (unfold cols; destruct maze; lia).
  assert (forall l : list Z,
            Z.of_nat (length (l ≫= fun r => (fun c => (r, c)) <$> seqZ 0 (cols maze)))
            = Z.of_nat (length l) * cols maze) as Hlen.
  { induction l as [|r l IH]; [done|].
    rewrite bind_cons, length_app, length_fmap, length_seqZ. simpl length.
    rewrite Nat2Z.inj_add, IH. lia. }
  rewrite Hlen, length_seqZ. unfold rows. lia.
Qed.

Lemma potential_insert (bound : Z) (g : gmap Pos Z) (cells : list Pos)
    (p : Pos) (v : Z) :
  NoDup cells -> p ∈ cells ->
  potential bound (<[ p := v ]> g) cells =
  potential bound g cells - weight bound g p + v.
Proof.
  assert (forall l, p ∉ l ->
            potential bound (<[ p := v ]> g) l = potential bound g l) as Hout.
  { induction l as [|q l IH]; [done|]. intros [Hq Hl]%not_elem_of_cons.
    simpl. rewrite IH by done. unfold weight.
    by rewrite lookup_insert_ne. }
  induction 1 as [|q l Hq Hnd IH]; [by intros ?%elem_of_nil|].
  intros [->|Hin]%elem_of_cons; simpl.
  - rewrite Hout by done. unfold weight at 1. rewrite lookup_insert_eq.
    simpl. lia.
  - rewrite IH by done. unfold weight at 1.
    rewrite lookup_insert_ne by (intros ->; done). fold (weight bound g q).
    lia.
Qed.

Lemma potential_range (bound : Z) (g : gmap Pos Z) (cells : list Pos) :
  0 <= bound ->
  (forall p v, g !! p = Some v -> 0 <= v <= bound) ->
  0 <= potential bound g cells <= bound * Z.of_nat (length cells).
Proof.
  intros Hb Hg. induction cells as [|q l IH]; simpl; [lia|].
  assert (0 <= weight bound g q <= bound).
  { unfold weight. destruct (g !! q) as [v|] eqn:Hq; simpl; [eauto|lia]. }
  lia.
Qed.

Lemma cost_ok_size (maze : Maze) (g : gmap Pos Z) :
  cost_ok maze g -> Z.of_nat (size g) <= rows maze * cols maze.
Proof.
  intros [Hb _]. rewrite <- length_all_cells, <- (size_dom (D:=gset Pos)).
  rewrite <- (size_list_to_set (C:=gset Pos)) by apply NoDup_all_cells.
  apply inj_le, subseteq_size. intros p [v Hv]%elem_of_dom.
  apply elem_of_list_to_set, elem_of_all_cells. eauto.
Qed.

Lemma cost_ok_insert (maze : Maze) (g : gmap Pos Z) (n : Pos) (cg : Z) :
  cost_ok maze g -> in_bounds maze n = true ->
  0 <= cg < Z.of_nat (size g) ->
  improves g n (cg + 1) = true ->
  cost_ok maze (<[ n := cg + 1 ]> g) /\
  (size g <= size (<[ n := (cg + 1)%Z ]> g))%nat /\
  potential (rows maze * cols maze) (<[ n := cg + 1 ]> g) (all_cells maze)
  <= potential (rows maze * cols maze) g (all_cells maze) - 1.
Proof.
  intros Hok Hn Hcg Himp.
  assert ((size g <= size (<[ n := (cg + 1)%Z ]> g))%nat) as Hsize.
  { rewrite map_size_insert. destruct (g !! n); simpl; lia. }
  assert (cost_ok maze (<[ n := cg + 1 ]> g)) as Hok'.
  { destruct Hok as [Hb Hr]. split.
    - intros p v [[<- _]|[_ Hp]]%lookup_insert_Some; eauto.
    - intros p v [[<- <-]|[_ Hp]]%lookup_insert_Some.
      + rewrite map_size_insert. unfold improves in Himp.
        destruct (g !! n) as [old|] eqn:Hold; simpl.
        * apply Z.ltb_lt in Himp. apply Hr in Hold. lia.
        * lia.
      + apply Hr in Hp. lia. }
  split; [done|]. split; [done|].
  rewrite potential_insert
    by (apply NoDup_all_cells || by apply elem_of_all_cells).
  unfold weight, improves in *.
  destruct (g !! n) as [old|] eqn:Hold; simpl.
  - apply Z.ltb_lt in Himp. lia.
  - apply cost_ok_size in Hok'. rewrite map_size_insert_None in Hok' by done.
    lia.
Qed.

Lemma cost_relax (maze : Maze) (end_ : Pos) (cg : Z) (bound : Z) (st : state)
    (n : Pos) :
  in_bounds maze n = true ->
  cost_inv maze st /\ 0 <= cg < Z.of_nat (size (g_score st)) /\
    measure maze st <= bound ->
  cost_inv maze (relax end_ cg st n) /\
    0 <= cg < Z.of_nat (size (g_score (relax end_ cg st n))) /\
    measure maze (relax end_ cg st n) <= bound.
Proof.
  intros Hn (Hok & Hcg & Hm). unfold cost_inv in *.
  destruct (relax_cases end_ cg st n)
    as [[_ ->]|[(Himp & _ & ->)|(Himp & _ & ->)]]; [done| |];
    destruct (cost_ok_insert maze (g_score st) n cg) as (Hok' & Hsz & Hpot);
    try done; unfold measure in *; simpl; rewrite ?length_heappush;
    (split; [done|split]); lia.
Qed.

Lemma get_neighbors_in_bounds (maze : Maze) (p : Pos) (ns : list Pos) :
  rectangular maze -> _get_neighbors maze p = Ok ns ->
  Forall (fun n => in_bounds maze n = true) ns.
Proof.
  intros Hrect Hns. rewrite Forall_forall. intros n Hin.
  by apply (elem_of_get_neighbors maze p n ns Hrect Hns) in Hin as [_ [? _]].
Qed.

Lemma cost_iter (maze : Maze) (end_ : Pos) (st st' : state) :
  rectangular maze -> cost_inv maze st ->
  iter maze end_ st = Continue st' ->
  cost_inv maze st' /\ measure maze st' <= measure maze st - 1.
Proof.
  intros Hrect Hok
    (f & k & cur & rest & g & ns & Hopen & Hg & _ & Hns & ->)%iter_Continue.
  match goal with |- context [fold_left _ _ ?s] => set (st1 := s) end.
  cut (cost_inv maze (fold_left (relax end_ g) ns st1) /\
       0 <= g < Z.of_nat (size (g_score (fold_left (relax end_ g) ns st1))) /\
       measure maze (fold_left (relax end_ g) ns st1) <= measure maze st - 1);
    [tauto|].
  apply (fold_left_preserves
           (fun s => cost_inv maze s /\
                     0 <= g < Z.of_nat (size (g_score s)) /\
                     measure maze s <= measure maze st - 1)
           (fun n => in_bounds maze n = true)).
  - intros. by apply cost_relax.
  - by eapply get_neighbors_in_bounds.
  - split; [done|]. split; [by eapply ci_range|].
    unfold measure, st1. simpl. rewrite Hopen. simpl length. lia.
Qed.

Lemma measure_nonneg (maze : Maze) (st : state) :
  cost_inv maze st -> 0 <= measure maze st.
Proof.
  intros Hok. unfold measure.
  pose proof (cost_ok_size maze _ Hok) as Hsz.
  assert (0 <= rows maze * cols maze) by lia.
  pose proof (potential_range (rows maze * cols maze) (g_score st)
                (all_cells maze)) as Hp.
  destruct Hp as [Hp _]; [done| |lia].
  intros p v Hv. apply (ci_range _ _ Hok) in Hv. lia.
Qed.

Lemma iter_no_throw (maze : Maze) (end_ : Pos) (st : state) (e : exn) :
  rectangular maze -> frontier_inv st -> iter maze end_ st <> Throw e.
Proof.
  intros Hrect [_ _ Hk]. unfold iter.
  destruct (open_set st) as [|[[f k] cur] rest] eqn:Hopen; [done|]. simpl.
  destruct (Hk cur) as [g ->]; [simpl; by left|].
  destruct (stop_now _ _); [done|].
  by rewrite get_neighbors_filter.
Qed.

(** Enough fuel lets the loop run to its return. *)
Lemma search_terminates (fuel : nat) (maze : Maze) (end_ : Pos) (st : state) :
  rectangular maze -> frontier_inv st -> cost_inv maze st ->
  measure maze st < Z.of_nat fuel ->
  exists b st', search fuel maze end_ st = Finished b (Some st').
Proof.
  intros Hrect. revert st.
  induction fuel as [|fuel IH]; intros st Hfi Hok Hm.
  - apply measure_nonneg in Hok. lia.
  - simpl. destruct (iter maze end_ st) as [st'|b st'|e] eqn:Hiter.
    + destruct (cost_iter maze end_ st st') as [Hok' Hm']; [done..|].
      apply IH; [by eapply frontier_inv_iter|done|lia].
    + eauto.
    + by apply iter_no_throw in Hiter.
Qed.

Lemma search_more_fuel (fuel fuel' : nat) (maze : Maze) (end_ : Pos)
    (st : state) (b : bool) (final : option state) :
  (fuel <= fuel')%nat ->
  search fuel maze end_ st = Finished b final ->
  search fuel' maze end_ st = Finished b final.
Proof.
  revert fuel' st. induction fuel as [|fuel IH]; intros fuel' st Hle; [done|].
  destruct fuel' as [|fuel']; [lia|]. simpl.
  destruct (iter maze end_ st); [|done..]. apply IH. lia.
Qed.

Lemma cost_inv_init (maze : Maze) (start : Pos) :
  in_bounds maze start = true -> cost_inv maze (init_state start).
Proof.
  intros Hs. split; simpl.
  - intros p v [<- _]%lookup_singleton_Some. done.
  - intros p v [_ <-]%lookup_singleton_Some. rewrite map_size_singleton. lia.
Qed.

Lemma measure_init (maze : Maze) (start : Pos) :
  in_bounds maze start = true ->
  measure maze (init_state start) < Z.of_nat (search_budget maze).
Proof.
  intros Hs. pose proof (cost_inv_init maze start Hs) as Hok.
  pose proof (cost_ok_size maze _ Hok) as Hsz.
  unfold measure, search_budget. simpl in *.
  rewrite map_size_singleton in Hsz.
  pose proof (potential_range (rows maze * cols maze) {[ start := 0 ]}
                (all_cells maze)) as Hp.
  destruct Hp as [_ Hp]; [lia| |].
  - intros p v [_ <-]%lookup_singleton_Some. lia.
  - rewrite length_all_cells in Hp. lia.
Qed.

Lemma validate_rectangular (maze : Maze) (start end_ : Pos) :
  rectangular maze -> exists r, validate maze start end_ = Ok r.
Proof.
  intros Hrect. unfold validate.
  destruct (in_bounds maze start) eqn:Hs; [|eauto].
  destruct (in_bounds maze end_) eqn:He; [|eauto]. simpl.
  destruct (cell_in_bounds maze start Hrect Hs) as [vs ->].
  destruct (cell_in_bounds maze end_ Hrect He) as [ve ->]. simpl.
  destruct (vs =? 1); [eauto|]. destruct (ve =? 1); [eauto|].
  destruct (decide (start = end_)); eauto.
Qed.

Lemma find_path_fuel_terminates (maze : Maze) (start end_ : Pos) :
  rectangular maze ->
  exists b final,
    forall fuel, (search_budget maze <= fuel)%nat ->
      find_path_fuel fuel maze start end_ = Finished b final.
Proof.
  intros Hrect. unfold find_path_fuel.
  destruct (validate_rectangular maze start end_ Hrect) as [[b|] Hval];
    rewrite Hval; [by exists b, None|].
  apply validate_enters in Hval as (Hs & _).
  destruct (search_terminates (search_budget maze) maze end_ (init_state start))
    as (b & st' & Hsearch);
    [done|apply frontier_inv_init|by apply cost_inv_init|by apply measure_init|].
  exists b, (Some st'). intros fuel Hle. by eapply search_more_fuel.
Qed.

Lemma find_path_finishes (maze : Maze) (start end_ : Pos) :
  rectangular maze ->
  exists b final,
    find_path maze start end_ = Finished b final /\
    answer (find_path maze start end_) = Some b.
Proof.
  intros Hrect.
  destruct (find_path_fuel_terminates maze start end_ Hrect)
    as (b & final & Hfuel).
  exists b, final. unfold find_path. rewrite Hfuel by done. done.
Qed.

(** C5: on a rectangular grid of 0/1 cells [find_path] terminates with a
    definite boolean for every pair of coordinates, in or out of bounds: the
    loop returns within [search_budget maze] iterations, and neither an
    [IndexError] nor a [KeyError] is raised. *)
Theorem find_path_total (maze : Maze) (start end_ : Pos) :
  rectangular maze -> binary maze ->
  exists b final,
    find_path maze start end_ = Finished b final /\
    answer (find_path maze start end_) = Some b /\
    forall fuel, (search_budget maze <= fuel)%nat ->
      find_path_fuel fuel maze start end_ = Finished b final.
Proof.
  intros Hrect _.
  destruct (find_path_fuel_terminates maze start end_ Hrect)
    as (b & final & Hfuel).
  exists b, final. unfold find_path. rewrite Hfuel by done. done.
Qed.

Lemma find_path_total_witness :
  exists b final,
    find_path maze_small (1, 1) (1, 2) = Finished b final /\
    answer (find_path maze_small (1, 1) (1, 2)) = Some b /\
    forall fuel, (search_budget maze_small <= fuel)%nat ->
      find_path_fuel fuel maze_small (1, 1) (1, 2) = Finished b final.
Proof.
  apply (find_path_total maze_small (1, 1) (1, 2)).
  - repeat constructor.
  - repeat (constructor; [repeat (constructor; [by (left + right)|])|]);
      constructor.
Defined.

(** ** Paths *)

Lemma adjacent_sym (a b : Pos) : adjacent a b -> adjacent b a.
Proof. unfold adjacent. lia. Qed.

Lemma path_open_l (maze : Maze) (a b : Pos) (n : nat) :
  path maze a b n -> open_cell maze a.
Proof. by destruct 1. Qed.

Lemma path_open_r (maze : Maze) (a b : Pos) (n : nat) :
  path maze a b n -> open_cell maze b.
Proof. induction 1; auto. Qed.

Lemma path_snoc (maze : Maze) (a b c : Pos) (n : nat) :
  path maze a b n -> adjacent b c -> open_cell maze c ->
  path maze a c (S n).
Proof.
  induction 1 as [a Ha|a b' b n Ha Hadj _ IH]; intros Hbc Hc.
  - eapply path_step; [done..|]. by apply path_here.
  - eapply path_step; [done..|]. by apply IH.
Qed.

Lemma path_rev (maze : Maze) (a b : Pos) (n : nat) :
  path maze a b n -> path maze b a n.
Proof.
  induction 1 as [a Ha|a b' b n Ha Hadj _ IH].
  - by apply path_here.
  - eapply path_snoc; [done| |done]. by apply adjacent_sym.
Qed.

Lemma connected_sym (maze : Maze) (a b : Pos) :
  connected maze a b -> connected maze b a.
Proof. intros [n Hp]. exists n. by apply path_rev. Qed.

Lemma connected_step (maze : Maze) (a b c : Pos) :
  connected maze a b -> adjacent b c -> open_cell maze c ->
  connected maze a c.
Proof. intros [n Hp] ? ?. exists (S n). by eapply path_snoc. Qed.

(** ** What the search knows about reachability *)

Lemma relax_recorded (end_ : Pos) (cg : Z) (st : state) (n : Pos) :
  is_Some (g_score (relax end_ cg st n) !! n).
Proof.
  destruct (relax_cases end_ cg st n)
    as [[Himp ->]|[(_ & _ & ->)|(_ & _ & ->)]]; simpl;
    rewrite ?lookup_insert_eq; try done.
  unfold improves in Himp. by destruct (g_score st !! n).
Qed.

Lemma relax_keeps (end_ : Pos) (cg : Z) (st : state) (n p : Pos) :
  is_Some (g_score st !! p) -> is_Some (g_score (relax end_ cg st n) !! p).
Proof.
  intros Hp.
  destruct (relax_cases end_ cg st n)
    as [[_ ->]|[(_ & _ & ->)|(_ & _ & ->)]]; simpl; [done| |];
    apply lookup_insert_is_Some'; by right.
Qed.

Lemma fold_relax_recorded (end_ : Pos) (cg : Z) (ns : list Pos) (st : state)
    (n : Pos) :
  n ∈ ns -> is_Some (g_score (fold_left (relax end_ cg) ns st) !! n).
Proof.
  revert st. induction ns as [|m ns IH]; intros st; [by intros ?%elem_of_nil|].
  intros [->|Hin]%elem_of_cons; simpl; [|by apply IH].
  apply (fold_left_preserves (fun s => is_Some (g_score s !! m))
           (fun _ => True)).
  - intros. by apply relax_keeps.
  - by apply Forall_true.
  - apply relax_recorded.
Qed.

Lemma reach_inv_relax (maze : Maze) (start end_ current : Pos) (cg : Z)
    (st : state) (n : Pos) :
  connected maze start current ->
  adjacent current n /\ open_cell maze n ->
  reach_inv maze start end_ (Some current) st ->
  reach_inv maze start end_ (Some current) (relax end_ cg st n).
Proof.
  intros Hcur [Hadj Hopen] [Hs Hsound Hclosed Hgoal].
  pose proof (connected_step maze start current n Hcur Hadj Hopen) as Hn.
  destruct (relax_cases end_ cg st n)
    as [[_ ->]|[(_ & Hin & ->)|(_ & Hin & ->)]]; [done| |]; split; simpl.
  - apply lookup_insert_is_Some'. by right.
  - intros p [->|Hp]%lookup_insert_is_Some'; auto.
  - intros p q [->|Hp]%lookup_insert_is_Some' Hne Hnotin Hpq Hq; [done|].
    apply lookup_insert_is_Some'. right. eauto.
  - intros [->|He]%lookup_insert_is_Some'; auto.
  - apply lookup_insert_is_Some'. by right.
  - intros p [->|Hp]%lookup_insert_is_Some'; auto.
  - intros p q [->|Hp]%lookup_insert_is_Some' Hne Hnotin Hpq Hq.
    + exfalso. apply Hnotin, elem_of_union_l, elem_of_singleton. done.
    + apply lookup_insert_is_Some'. right.
      apply (Hclosed p q); try done.
      intros ?. apply Hnotin, elem_of_union_r. done.
  - intros [->|He]%lookup_insert_is_Some'.
    + by apply elem_of_union_l, elem_of_singleton.
    + by apply elem_of_union_r, Hgoal.
Qed.

Lemma search_inv_iter (maze : Maze) (start end_ : Pos) (st st' : state) :
  rectangular maze -> search_inv_holds maze start end_ st ->
  iter maze end_ st = Continue st' ->
  search_inv_holds maze start end_ st'.
Proof.
  intros Hrect (Hfi & Hgi & Hri) Hiter.
  split; [by eapply frontier_inv_iter|]. split; [by eapply goal_inv_iter|].
  pose proof Hiter as
    (f & k & cur & rest & g & ns & Hopen & Hg & Hstop & Hns & ->)%iter_Continue.
  assert (cur <> end_) as Hne.
  { intros ->. destruct (goal_inv_pop_goal maze end_ st f k rest) as [? Hret];
      [done..|]. congruence. }
  assert (connected maze start cur) as Hcur by (apply Hri; eauto).
  match goal with |- context [fold_left _ _ ?s] => set (st1 := s) end.
  assert (reach_inv maze start end_ (Some cur)
            (fold_left (relax end_ g) ns st1)) as [Hs Hsound Hclosed Hgoal].
  { apply (fold_left_preserves (reach_inv maze start end_ (Some cur))
             (fun n => adjacent cur n /\ open_cell maze n)).
    - intros. by apply reach_inv_relax.
    - rewrite Forall_forall. intros n Hn.
      by apply (elem_of_get_neighbors maze cur n ns Hrect Hns).
    - destruct Hri as [Hs Hsound Hclosed Hgoal]. split; simpl; [done..| |].
      + intros p q Hp Hpc Hnotin. apply Hclosed; [done..|].
        intros Hin. apply Hnotin, elem_of_difference. split; [done|].
        rewrite elem_of_singleton. congruence.
      + intros He. apply elem_of_difference. split; [auto|].
        rewrite elem_of_singleton. congruence. }
  split; [done..| |done].
  intros p q Hp _ Hnotin Hpq Hq.
  destruct (decide (p = cur)) as [->|Hpc].
  - apply fold_relax_recorded.
    by apply (elem_of_get_neighbors maze cur q ns Hrect Hns).
  - apply (Hclosed p q); try done. congruence.
Qed.

Lemma search_inv_init (maze : Maze) (start end_ : Pos) :
  open_cell maze start -> start <> end_ ->
  search_inv_holds maze start end_ (init_state start).
Proof.
  intros Hopen Hne.
  split; [apply frontier_inv_init|]. split; [by apply goal_inv_init|].
  split; simpl.
  - by rewrite lookup_singleton_eq.
  - intros p [v [<- _]%lookup_singleton_Some]. exists O. by apply path_here.
  - intros p q [v [<- _]%lookup_singleton_Some] _ Hnotin.
    exfalso. by apply Hnotin, elem_of_singleton.
  - intros [v [? _]%lookup_singleton_Some]. done.
Qed.

(** An empty frontier means everything connected to [start] is recorded. *)
Lemma exhausted_unreachable (maze : Maze) (start end_ : Pos) (st : state) :
  search_inv_holds maze start end_ st -> open_set st = [] ->
  ~ connected maze start end_.
Proof.
  intros ([Hh _ _] & _ & [Hs Hsound Hclosed Hgoal]) Hopen [n Hp].
  rewrite Hopen in Hh. simpl in Hh.
  assert (forall p, p ∉ open_set_hash st) as Hempty
    by (intros p; rewrite Hh; apply not_elem_of_empty).
  assert (forall a b n, path maze a b n ->
            is_Some (g_score st !! a) -> is_Some (g_score st !! b)) as Hall.
  { induction 1 as [|a b c m Ha Hab Hbc IH]; [done|]. intros Hrec.
    apply IH, (Hclosed a b); try done. by eapply path_open_l. }
  eapply Hempty, Hgoal, Hall; eauto.
Qed.

Lemma iter_Return (maze : Maze) (start end_ : Pos) (st st' : state)
    (b : bool) :
  search_inv_holds maze start end_ st ->
  iter maze end_ st = Return b st' ->
  (b = true <-> connected maze start end_).
Proof.
  intros Hinv Hiter. pose proof Hinv as (Hfi & [Hb He] & Hri).
  unfold iter in Hiter.
  destruct (open_set st) as [|[[f k] cur] rest] eqn:Hopen; simpl in Hiter.
  - injection Hiter as <- <-.
    split; [done|]. intros Hc. by eapply exhausted_unreachable in Hc.
  - destruct (g_score st !! cur) as [g|] eqn:Hg; [|done].
    destruct (stop_now _ _) eqn:Hstop;
      [|by destruct (_get_neighbors maze cur)].
    injection Hiter as <- <-. split; [|done]. intros _.
    rewrite Hb in Hstop. unfold goal_check in Hstop.
    destruct (decide (cur = end_)) as [->|]; [|done].
    apply Hri. eauto.
Qed.

Lemma search_decides (fuel : nat) (maze : Maze) (start end_ : Pos)
    (st : state) (b : bool) (final : option state) :
  rectangular maze -> search_inv_holds maze start end_ st ->
  search fuel maze end_ st = Finished b final ->
  (b = true <-> connected maze start end_).
Proof.
  intros Hrect. revert st.
  induction fuel as [|fuel IH]; intros st Hinv; simpl; [done|].
  destruct (iter maze end_ st) as [st'|b' st'|e] eqn:Hiter; [| |done].
  - apply IH. by eapply search_inv_iter.
  - intros [= <- _]. by eapply iter_Return.
Qed.

Lemma open_cell_of_valid (maze : Maze) (p : Pos) (v : Z) :
  binary maze -> in_bounds maze p = true -> cell maze p.1 p.2 = Ok v ->
  v <> 1 -> open_cell maze p.
Proof.
  intros Hbin Hb Hv Hne. split; [done|].
  apply in_bounds_spec in Hb as [? ?].
  destruct (cell_binary maze p.1 p.2 v) as [->| ->]; try done; lia.
Qed.

(** On a rectangular binary grid the answer is true exactly for connected
    endpoints, valid or not. *)
Lemma find_path_fuel_decides (fuel : nat) (maze : Maze) (start end_ : Pos)
    (b : bool) (final : option state) :
  rectangular maze -> binary maze ->
  find_path_fuel fuel maze start end_ = Finished b final ->
  (b = true <-> connected maze start end_).
Proof.
  intros Hrect Hbin. unfold find_path_fuel.
  destruct (validate maze start end_) as [[b'|]|e] eqn:Hval; [| |done].
  - intros [= <- _]. revert Hval. unfold validate.
    destruct (in_bounds maze start) eqn:Hs; simpl.
    2:{ intros [= <-]. split; [done|]. intros [n [Ho _]%path_open_l].
        congruence. }
    destruct (in_bounds maze end_) eqn:He; simpl.
    2:{ intros [= <-]. split; [done|]. intros [n [Ho _]%path_open_r].
        congruence. }
    destruct (cell maze start.1 start.2) as [vs|] eqn:Hvs; [|done]. simpl.
    destruct (vs =? 1) eqn:Hvs1.
    { apply Z.eqb_eq in Hvs1 as ->. intros [= <-]. split; [done|].
      intros [n [_ Ho]%path_open_l]. congruence. }
    destruct (cell maze end_.1 end_.2) as [ve|] eqn:Hve; [|done]. simpl.
    destruct (ve =? 1) eqn:Hve1.
    { apply Z.eqb_eq in Hve1 as ->. intros [= <-]. split; [done|].
      intros [n [_ Ho]%path_open_r]. congruence. }
    destruct (decide (start = end_)) as [<-|]; [|done].
    intros [= <-]. split; [|done]. intros _. exists O. apply path_here.
    apply Z.eqb_neq in Hvs1. by apply (open_cell_of_valid maze start vs).
  - apply validate_enters in Hval
      as (Hs & _ & (vs & Hvs & Hvs1) & _ & Hne).
    apply search_decides; [done|]. apply search_inv_init; [|done].
    by apply (open_cell_of_valid maze start vs).
Qed.

(** C1: for in-bounds, unoccupied [start] and [end_] on a rectangular binary
    grid, [find_path] returns true if and only if a 4-directionally connected
    path of open cells leads from [start] to [end_], and false otherwise;
    when [start = end_] it returns true, with the path of length zero. *)
Theorem find_path_reachability (maze : Maze) (start end_ : Pos) :
  rectangular maze -> binary maze ->
  in_bounds maze start = true -> in_bounds maze end_ = true ->
  cell maze start.1 start.2 <> Ok 1 -> cell maze end_.1 end_.2 <> Ok 1 ->
  (answer (find_path maze start end_) = Some true <->
     connected maze start end_) /\
  (answer (find_path maze start end_) = Some false <->
     ~ connected maze start end_) /\
  (start = end_ ->
     find_path maze start end_ = Finished true None /\
     path maze start end_ 0).
Proof.
  intros Hrect Hbin Hs He Hvs Hve.
  destruct (find_path_finishes maze start end_ Hrect)
    as (b & final & Hfp & Hans).
  pose proof (find_path_fuel_decides _ maze start end_ b final Hrect Hbin Hfp)
    as Hdec.
  rewrite Hans. split; [|split].
  - rewrite <- Hdec. split; congruence.
  - rewrite <- Hdec. destruct b; split; congruence.
  - intros <-.
    destruct (cell_in_bounds maze start Hrect Hs) as [v Hv].
    assert (open_cell maze start) as Hopen
      by (eapply open_cell_of_valid; eauto; congruence).
    split; [|by apply path_here].
    unfold find_path, find_path_fuel, validate.
    rewrite Hs, Hv. simpl.
    destruct (v =? 1) eqn:Hv1; [apply Z.eqb_eq in Hv1; congruence|].
    by rewrite decide_True.
Qed.

Lemma find_path_reachability_witness :
  (answer (find_path maze_small (1, 1) (1, 2)) = Some true <->
     connected maze_small (1, 1) (1, 2)) /\
  (answer (find_path maze_small (1, 1) (1, 2)) = Some false <->
     ~ connected maze_small (1, 1) (1, 2)) /\
  ((1, 1) = (1, 2) ->
     find_path maze_small (1, 1) (1, 2) = Finished true None /\
     path maze_small (1, 1) (1, 2) 0).
Proof.
  apply (find_path_reachability maze_small (1, 1) (1, 2)).
  - repeat constructor.
  - repeat (constructor; [repeat (constructor; [by (left + right)|])|]);
      constructor.
  - reflexivity.
  - reflexivity.
  - vm_compute. discriminate.
  - vm_compute. discriminate.
Defined.

(** C6: [find_path] returns false whenever [start] or [end_] is out of
    bounds or the cell at either of them is occupied, whatever the other
    endpoint is: the validation answers false, nothing is raised, and no
    search state is built. *)
Theorem find_path_rejects (maze : Maze) (start end_ : Pos) :
  rectangular maze ->
  in_bounds maze start = false \/ in_bounds maze end_ = false \/
    cell maze start.1 start.2 = Ok 1 \/ cell maze end_.1 end_.2 = Ok 1 ->
  validate maze start end_ = Ok (Some false) /\
  find_path maze start end_ = Finished false None /\
  forall fuel, find_path_fuel fuel maze start end_ = Finished false None.
Proof.
  intros Hrect Hbad.
  assert (validate maze start end_ = Ok (Some false)) as Hval.
  { unfold validate.
    destruct (in_bounds maze start) eqn:Hs; [|done].
    destruct (in_bounds maze end_) eqn:He; [|done]. simpl.
    destruct (cell_in_bounds maze start Hrect Hs) as [vs Hvs].
    destruct (cell_in_bounds maze end_ Hrect He) as [ve Hve].
    rewrite Hvs, Hve. simpl.
    destruct (vs =? 1) eqn:Hvs1; [done|].
    destruct (ve =? 1) eqn:Hve1; [done|].
    apply Z.eqb_neq in Hvs1, Hve1.
    destruct Hbad as [?|[?|[?|?]]]; congruence. }
  split; [done|]. unfold find_path, find_path_fuel. rewrite Hval. done.
Qed.

Lemma find_path_rejects_witness :
  validate maze_small (0, 0) (1, 1) = Ok (Some false) /\
  find_path maze_small (0, 0) (1, 1) = Finished false None /\
  forall fuel, find_path_fuel fuel maze_small (0, 0) (1, 1) = Finished false None.
Proof.
  apply (find_path_rejects maze_small (0, 0) (1, 1)).
  - repeat constructor.
  - right. right. left. vm_compute. reflexivity.
Defined.

(** C7: reachability is symmetric: on a rectangular binary grid
    [find_path] gives the same boolean for [(a, b)] and for [(b, a)], for
    every pair of coordinates. *)
Theorem find_path_symmetric (maze : Maze) (a b : Pos) :
  rectangular maze -> binary maze ->
  answer (find_path maze a b) = answer (find_path maze b a) /\
  exists r, answer (find_path maze a b) = Some r.
Proof.
  intros Hrect Hbin.
  destruct (find_path_finishes maze a b Hrect) as (r1 & f1 & H1 & Ha1).
  destruct (find_path_finishes maze b a Hrect) as (r2 & f2 & H2 & Ha2).
  apply find_path_fuel_decides in H1, H2; try done.
  rewrite Ha1, Ha2. split; [|eauto]. f_equal.
  destruct r1, r2; try done.
  - symmetry. apply H2, connected_sym, H1. done.
  - apply H1, connected_sym, H2. done.
Qed.

Lemma find_path_symmetric_witness :
  answer (find_path maze_small (1, 1) (1, 2)) =
  answer (find_path maze_small (1, 2) (1, 1)) /\
  exists r, answer (find_path maze_small (1, 1) (1, 2)) = Some r.
Proof.
  apply (find_path_symmetric maze_small (1, 1) (1, 2)).
  - repeat constructor.
  - repeat (constructor; [repeat (constructor; [by (left + right)|])|]);
      constructor.
Defined.

(** ** Where the search departs from its documentation *)

Lemma last_cons_default {A : Type} (l : list A) (a b : A) :
  List.last (b :: l) a = List.last l b.
Proof.
  revert a b. induction l as [|c l IH]; intros a b; [done|].
  change (List.last (b :: c :: l) a) with (List.last (c :: l) a).
  by rewrite (IH a c), (IH b c).
Qed.

Lemma is_walk_path (maze : Maze) (a : Pos) (l : list Pos) :
  is_walk maze a l = true -> path maze a (List.last l a) (length l).
Proof.
  revert a. induction l as [|b l IH]; intros a.
  - intros Ha%walkable_spec. by apply path_here.
  - cbn [is_walk length].
    intros [[Ha%walkable_spec Hab]%andb_true_iff Hl]%andb_true_iff.
    apply Z.eqb_eq in Hab. apply IH in Hl.
    rewrite last_cons_default. by apply (path_step maze a b).
Qed.

(** The pops of [find_path((8,1), (0,4))] on [maze9], with the popped [f]
    and the cost read from [g_score].  (5,1) is queued with cost 7 and
    [f = 15]; its cost drops to 5 when (5,0) is expanded, but its entry stays
    at 15.  (3,1) is queued with cost 11 and [f = 17]; its cost drops to 7
    when (4,1) is expanded, but its entry stays at 17, behind the entries of
    the longer route, and the goal is popped first. *)
Lemma pops_maze9 :
  pops 100 maze9 (0, 4) (init_state (8, 1)) =
  [ (0, (8, 1), 0); (11, (8, 2), 1); (11, (8, 3), 2); (11, (7, 3), 3);
    (11, (6, 3), 4); (11, (6, 4), 5); (11, (5, 4), 6); (11, (4, 4), 7);
    (11, (3, 4), 8); (13, (8, 0), 1); (13, (6, 2), 5); (13, (3, 3), 9);
    (13, (7, 0), 2); (13, (5, 2), 6); (13, (6, 0), 3); (13, (5, 0), 4);
    (15, (3, 2), 10); (15, (5, 1), 5); (13, (4, 1), 6); (15, (2, 2), 11);
    (15, (1, 2), 12); (15, (0, 2), 13); (15, (0, 3), 14); (15, (0, 4), 15) ].
Proof. vm_compute. reflexivity. Qed.

(** C2: a query on which the recorded goal cost is not the shortest
    distance.  On [maze9] the call [find_path((8,1), (0,4))] returns true at
    its termination check with [best_goal_cost = 15], although thirteen
    steps lead from (8,1) to (0,4). *)
Theorem goal_cost_not_shortest :
  rectangular maze9 /\ binary maze9 /\
  answer (find_path maze9 (8, 1) (0, 4)) = Some true /\
  recorded_cost (find_path maze9 (8, 1) (0, 4)) = Some 15 /\
  path maze9 (8, 1) (0, 4) 13.
Proof.
  split; [|split; [|split; [|split]]].
  - repeat constructor.
  - repeat (constructor; [repeat (constructor; [by (left + right)|])|]);
      constructor.
  - vm_compute. reflexivity.
  - vm_compute. reflexivity.
  - apply (is_walk_path maze9 (8, 1) walk9). vm_compute. reflexivity.
Qed.

(** C3: a strictly better cost found for a coordinate that is still queued
    does not push a new entry.  The relaxation never pushes a coordinate of
    [open_set_hash]; and in the call [find_path((8,1), (0,4))] on [maze9],
    the sixteenth iteration pops (5,0) with cost 4 and finds cost 5 for its
    neighbour (5,1), queued with cost 7: the cost is lowered and the frontier
    is left as it was. *)
Theorem pending_neighbor_not_pushed :
  (forall end_ current_g st neighbor,
     neighbor ∈ open_set_hash st ->
     open_set (relax end_ current_g st neighbor) = open_set st) /\
  exists st k rest,
    iterate 15 maze9 (0, 4) (init_state (8, 1)) = Some st /\
    open_set st = (13, k, (5, 0)) :: rest /\
    g_score st !! (5, 0) = Some 4 /\
    _get_neighbors maze9 (5, 0) = Ok [(6, 0); (5, 1)] /\
    let st1 := {| open_set := rest;
                  counter := counter st;
                  g_score := g_score st;
                  open_set_hash := open_set_hash st ∖ {[ (5, 0) ]};
                  best_goal_cost := best_goal_cost st |} in
    let st2 := relax (0, 4) 4 st1 (6, 0) in
    (5, 1) ∈ open_set_hash st2 /\
    g_score st2 !! (5, 1) = Some 7 /\
    g_score (relax (0, 4) 4 st2 (5, 1)) !! (5, 1) = Some 5 /\
    open_set (relax (0, 4) 4 st2 (5, 1)) = open_set st2.
Proof.
  split.
  - intros end_ cg st n Hin. unfold relax.
    destruct (improves _ _ _); [|done]. by rewrite decide_True.
  - eexists _, _, _. split; [vm_compute; reflexivity|].
    split; [vm_compute; reflexivity|].
    split; [vm_compute; reflexivity|].
    split; [vm_compute; reflexivity|].
    cbv zeta. split; [|split; [|split]].
    + apply (bool_decide_unpack _). vm_compute. exact I.
    + vm_compute. reflexivity.
    + vm_compute. reflexivity.
    + vm_compute. reflexivity.
Qed.

(** ** More on the heuristic *)

(** X1: the heuristic is a metric on coordinates: it obeys the triangle
    inequality and is zero only between equal coordinates. *)
Theorem heuristic_metric (a b c : Pos) :
  _heuristic a c <= _heuristic a b + _heuristic b c /\
  (_heuristic a b = 0 <-> a = b).
Proof.
  destruct a as [ar ac], b as [br bc], c as [cr cc].
  unfold _heuristic. simpl. split; [lia|]. split.
  - intros H. f_equal; lia.
  - intros [= -> ->]. lia.
Qed.

(** ** More on the neighbor enumerator, on any grid *)

Lemma cell_raises_IndexError (maze : Maze) (r c : Z) (e : exn) :
  cell maze r c = Raise e -> e = IndexError.
Proof.
  unfold cell, bind, py_index.
  repeat match goal with
         | |- context [if ?b then _ else _] => destruct b
         | |- context [match ?l !! ?i with _ => _ end] => destruct (l !! i)
         end; congruence.
Qed.

(** Reading an in-bounds cell fails exactly when its row is too short. *)
Lemma cell_in_bounds_Raise (maze : Maze) (q : Pos) :
  in_bounds maze q = true ->
  (exists e, cell maze q.1 q.2 = Raise e) <->
  (exists row, maze !! Z.to_nat q.1 = Some row /\
               Z.of_nat (length row) <= q.2).
Proof.
  intros [Hr Hc]%in_bounds_spec. unfold rows in Hr.
  destruct (py_index_Ok maze q.1 Hr) as (row & Hrow & Hlook).
  unfold cell. rewrite Hrow. simpl. split.
  - intros [e He]. exists row. split; [done|].
    destruct (Z_lt_le_dec q.2 (Z.of_nat (length row))) as [Hlt|]; [|done].
    destruct (py_index_Ok row q.2) as (v & Hv & _); [lia|]. congruence.
  - intros (row' & Hrow' & Hlen). rewrite Hlook in Hrow'.
    injection Hrow' as <-. unfold py_index.
    destruct (q.2 <? 0) eqn:Hneg; [apply Z.ltb_lt in Hneg; lia|].
    replace ((0 <=? q.2) && (q.2 <? Z.of_nat (length row))) with false;
      [eauto|].
    symmetry. apply andb_false_iff. right. apply Z.ltb_ge. lia.
Qed.

Lemma neighbors_loop_Ok (maze : Maze) (row col : Z) (ds : list (Z * Z))
    (acc ns : list Pos) :
  neighbors_loop maze row col ds acc = Ok ns ->
  ns = acc ++ List.filter (walkable maze)
                (map (fun d => (row + d.1, col + d.2)) ds).
Proof.
  revert acc. induction ds as [|[dr dc] ds IH]; intros acc; simpl.
  - intros [= <-]. by rewrite app_nil_r.
  - unfold walkable at 1. simpl.
    destruct (in_bounds maze (row + dr, col + dc)); simpl; [|apply IH].
    destruct (cell maze (row + dr) (col + dc)) as [v|e]; simpl; [|done].
    destruct (v =? 0); [|apply IH].
    intros ->%IH. by rewrite <- app_assoc.
Qed.

Lemma neighbors_loop_Raise (maze : Maze) (row col : Z) (ds : list (Z * Z))
    (acc : list Pos) (e : exn) :
  neighbors_loop maze row col ds acc = Raise e <->
  exists ds1 d ds2,
    ds = ds1 ++ d :: ds2 /\
    in_bounds maze (row + d.1, col + d.2) = true /\
    cell maze (row + d.1) (col + d.2) = Raise e /\
    Forall (fun d' => in_bounds maze (row + d'.1, col + d'.2) = true ->
                      exists v, cell maze (row + d'.1) (col + d'.2) = Ok v)
           ds1.
Proof.
  revert acc. induction ds as [|[dr dc] ds IH]; intros acc; simpl.
  - split; [done|]. intros (ds1 & d & ds2 & Hnil & _). by destruct ds1.
  - destruct (in_bounds maze (row + dr, col + dc)) eqn:Hb.
    + destruct (cell maze (row + dr) (col + dc)) as [v|e'] eqn:Hv; simpl.
      * assert (forall acc',
                  neighbors_loop maze row col ds acc' = Raise e <->
                  exists ds1 d ds2,
                    (dr, dc) :: ds = ds1 ++ d :: ds2 /\
                    in_bounds maze (row + d.1, col + d.2) = true /\
                    cell maze (row + d.1) (col + d.2) = Raise e /\
                    Forall (fun d' =>
                      in_bounds maze (row + d'.1, col + d'.2) = true ->
                      exists v, cell maze (row + d'.1) (col + d'.2) = Ok v)
                      ds1) as Hstep.
        { intros acc'. rewrite IH. split.
          - intros (ds1 & d & ds2 & -> & ? & ? & ?).
            exists ((dr, dc) :: ds1), d, ds2. split; [done|].
            split; [done|]. split; [done|]. constructor; [|done]. eauto.
          - intros (ds1 & d & ds2 & Heq & Hd & He & Hall).
            destruct ds1 as [|d1 ds1].
            + injection Heq as <- <-. simpl in He. congruence.
            + injection Heq as <- ->. apply Forall_cons in Hall as [_ Hall].
              by exists ds1, d, ds2. }
        destruct (v =? 0); apply Hstep.
      * split.
        -- intros [= ->]. by exists [], (dr, dc), ds.
        -- intros (ds1 & d & ds2 & Heq & Hd & He & Hall).
           destruct ds1 as [|d1 ds1].
           ++ injection Heq as <- <-. simpl in He. congruence.
           ++ injection Heq as <- ->. apply Forall_cons in Hall as [Hd1 _].
              destruct (Hd1 Hb) as [v Hv']. simpl in Hv'. congruence.
    + rewrite IH. split.
      * intros (ds1 & d & ds2 & -> & ? & ? & ?).
        exists ((dr, dc) :: ds1), d, ds2. split; [done|].
        split; [done|]. split; [done|]. constructor; [|done].
        simpl. congruence.
      * intros (ds1 & d & ds2 & Heq & Hd & He & Hall).
        destruct ds1 as [|d1 ds1].
        -- injection Heq as <- <-. simpl in Hd. congruence.
        -- injection Heq as <- ->. apply Forall_cons in Hall as [_ Hall].
           by exists ds1, d, ds2.
Qed.

Lemma candidates_offsets (p : Pos) :
  map (fun d => (p.1 + d.1, p.2 + d.2)) directions = candidates p.
Proof.
  unfold directions, candidates. cbn [map fst snd]. repeat f_equal; lia.
Qed.

Lemma get_neighbors_Ok (maze : Maze) (p : Pos) (ns : list Pos) :
  _get_neighbors maze p = Ok ns ->
  ns = List.filter (walkable maze) (candidates p).
Proof.
  unfold _get_neighbors. intros ->%neighbors_loop_Ok.
  by rewrite app_nil_l, candidates_offsets.
Qed.

Lemma elem_of_get_neighbors_Ok (maze : Maze) (p q : Pos) (ns : list Pos) :
  _get_neighbors maze p = Ok ns ->
  q ∈ ns <-> adjacent p q /\ open_cell maze q.
Proof.
  intros ->%get_neighbors_Ok.
  rewrite list_elem_of_In, filter_In, <- list_elem_of_In.
  by rewrite elem_of_candidates, walkable_spec.
Qed.

Lemma get_neighbors_raises_IndexError (maze : Maze) (p : Pos) (e : exn) :
  _get_neighbors maze p = Raise e -> e = IndexError.
Proof.
  intros (ds1 & d & ds2 & _ & _ & He & _)%neighbors_loop_Raise.
  by eapply cell_raises_IndexError.
Qed.

Lemma get_neighbors_short_row (maze : Maze) (p q : Pos) (row : list Z) :
  q ∈ candidates p -> in_bounds maze q = true ->
  maze !! Z.to_nat q.1 = Some row -> Z.of_nat (length row) <= q.2 ->
  _get_neighbors maze p = Raise IndexError.
Proof.
  intros Hq Hb Hrow Hlen.
  destruct (_get_neighbors maze p) as [ns|e] eqn:Hns.
  - exfalso.
    destruct (cell_in_bounds_Raise maze q Hb) as [_ [e He]]; [eauto|].
    assert (forall ds acc ns',
              neighbors_loop maze p.1 p.2 ds acc = Ok ns' ->
              q ∈ map (fun d => (p.1 + d.1, p.2 + d.2)) ds -> False)
      as Hloop.
    { induction ds as [|[dr dc] ds IH]; intros acc ns'; simpl.
      - intros _ ?%elem_of_nil. done.
      - intros Hok [->|Hin]%elem_of_cons.
        + rewrite Hb in Hok. simpl in He. rewrite He in Hok. done.
        + destruct (in_bounds maze (p.1 + dr, p.2 + dc)); [|by eauto].
          destruct (cell maze (p.1 + dr) (p.2 + dc)) as [v|]; [|done].
          simpl in Hok. destruct (v =? 0); eauto. }
    eapply Hloop; [exact Hns|]. by rewrite candidates_offsets.
  - f_equal. by eapply get_neighbors_raises_IndexError.
Qed.

(** X2: on any grid, rectangular or not, the enumerator either returns the
    in-bounds zero cells among the four candidates or raises [IndexError];
    it raises exactly when some candidate is in bounds (by the length of the
    first row) but lies beyond the end of its own row. *)
Theorem get_neighbors_any_grid (maze : Maze) (p : Pos) :
  (forall ns, _get_neighbors maze p = Ok ns ->
     ns = List.filter (walkable maze) (candidates p)) /\
  (forall e, _get_neighbors maze p = Raise e -> e = IndexError) /\
  (_get_neighbors maze p = Raise IndexError <->
   exists q row,
     q ∈ candidates p /\ in_bounds maze q = true /\
     maze !! Z.to_nat q.1 = Some row /\ Z.of_nat (length row) <= q.2).
Proof.
  split; [intros ns; apply get_neighbors_Ok|].
  split; [apply get_neighbors_raises_IndexError|]. split.
  - intros (ds1 & d & ds2 & Hds & Hb & He & _)%neighbors_loop_Raise.
    destruct (cell_in_bounds_Raise maze (p.1 + d.1, p.2 + d.2) Hb)
      as [Hrow _].
    destruct Hrow as (row & Hrow & Hlen); [eauto|].
    exists (p.1 + d.1, p.2 + d.2), row. split; [|done].
    rewrite <- candidates_offsets, Hds, map_app. simpl.
    apply elem_of_app. right. by left.
  - intros (q & row & Hq & Hb & Hrow & Hlen).
    by eapply get_neighbors_short_row.
Qed.

(** X3: each coordinate the enumerator returns is exactly one grid step
    from the position (never the position itself, never a diagonal), and the
    heuristic towards any goal differs by exactly one between the position
    and such a neighbour. *)
Theorem neighbor_one_step (maze : Maze) (p goal : Pos) (ns : list Pos)
    (n : Pos) :
  _get_neighbors maze p = Ok ns -> n ∈ ns ->
  _heuristic p n = 1 /\ n <> p /\
  Z.abs (_heuristic n goal - _heuristic p goal) = 1.
Proof.
  intros Hns [Hadj _]%(elem_of_get_neighbors_Ok maze p n ns Hns).
  destruct p as [pr pc], n as [nr nc], goal as [gr gc].
  unfold adjacent, _heuristic in *. simpl in *.
  split; [done|]. split; [intros [= -> ->]; lia|]. lia.
Qed.

Lemma neighbor_one_step_witness :
  _heuristic (1, 1) (1, 2) = 1 /\ (1, 2) <> (1, 1) /\
  Z.abs (_heuristic (1, 2) (0, 3) - _heuristic (1, 1) (0, 3)) = 1.
Proof.
  apply (neighbor_one_step maze_small (1, 1) (0, 3) [(1, 2)] (1, 2)).
  - vm_compute. reflexivity.
  - apply list_elem_of_singleton. reflexivity.
Defined.

(** X4: the neighbour relation is symmetric on open cells: if the
    enumerator, called on an open cell [p] of a rectangular grid, returns
    [q], then called on [q] it returns [p]. *)
Theorem neighbors_symmetric (maze : Maze) (p q : Pos) (ns : list Pos) :
  rectangular maze -> open_cell maze p ->
  _get_neighbors maze p = Ok ns -> q ∈ ns ->
  exists ns', _get_neighbors maze q = Ok ns' /\ p ∈ ns'.
Proof.
  intros Hrect Hp Hns [Hadj _]%(elem_of_get_neighbors_Ok maze p q ns Hns).
  eexists. split; [by apply get_neighbors_filter|].
  rewrite list_elem_of_In, filter_In, <- list_elem_of_In.
  rewrite elem_of_candidates, walkable_spec. split; [|done].
  by apply adjacent_sym.
Qed.

Lemma neighbors_symmetric_witness :
  exists ns', _get_neighbors maze_small (1, 2) = Ok ns' /\ (1, 1) ∈ ns'.
Proof.
  apply (neighbors_symmetric maze_small (1, 1) (1, 2) [(1, 2)]).
  - repeat constructor.
  - split; vm_compute; reflexivity.
  - vm_compute. reflexivity.
  - apply list_elem_of_singleton. reflexivity.
Defined.

Lemma heuristic_self (a : Pos) : _heuristic a a = 0.
Proof. unfold _heuristic. lia. Qed.

(** One step changes the heuristic by at most one. *)
Lemma heuristic_step (a b c : Pos) :
  adjacent a b -> _heuristic a c <= 1 + _heuristic b c.
Proof.
  destruct a, b, c. unfold adjacent, _heuristic. simpl. lia.
Qed.

Lemma heuristic_admissible_aux (maze : Maze) (a b : Pos) (n : nat) :
  path maze a b n -> _heuristic a b <= Z.of_nat n.
Proof.
  induction 1 as [a _|a b c n _ Hadj _ IH].
  - destruct a. unfold _heuristic. simpl. lia.
  - destruct a, b, c. unfold adjacent, _heuristic in *. simpl in *. lia.
Qed.

(** X5: the heuristic never overestimates: a path of [n] grid steps from
    [a] to [b] has [_heuristic a b <= n]. *)
Theorem heuristic_admissible (maze : Maze) (a b : Pos) (n : nat) :
  path maze a b n -> _heuristic a b <= Z.of_nat n.
Proof.
  induction 1 as [a _|a b c n _ Hadj _ IH].
  - rewrite heuristic_self. lia.
  - pose proof (heuristic_step a b c Hadj). lia.
Qed.

Lemma heuristic_admissible_witness :
  _heuristic (8, 1) (0, 4) <= Z.of_nat 13.
Proof.
  apply (heuristic_admissible maze9 (8, 1) (0, 4) 13).
  apply (is_walk_path maze9 (8, 1) walk9). vm_compute. reflexivity.
Defined.

(** ** More invariants of the search *)

(** A search that finishes does so from a loop state, by a returning
    iteration. *)
Lemma search_Finished_last (P : state -> Prop) (fuel : nat) (maze : Maze)
    (end_ : Pos) (st : state) (b : bool) (final : option state) :
  (forall s s', P s -> iter maze end_ s = Continue s' -> P s') ->
  P st -> search fuel maze end_ st = Finished b final ->
  exists last st', final = Some st' /\ P last /\
                   iter maze end_ last = Return b st'.
Proof.
  intros Hstep. revert st.
  induction fuel as [|fuel IH]; intros st Hst; simpl; [done|].
  destruct (iter maze end_ st) as [s'|b' s'|e] eqn:Hiter; [| |done].
  - apply IH. by eapply Hstep.
  - intros [= <- <-]. by exists st, s'.
Qed.

Lemma iter_Return_false (maze : Maze) (end_ : Pos) (st st' : state) :
  iter maze end_ st = Return false st' -> st' = st /\ open_set st = [].
Proof.
  unfold iter. destruct (open_set st) as [|[[f k] cur] rest]; simpl.
  - by intros [= <-].
  - destruct (g_score st !! cur); [|done].
    destruct (stop_now _ _); [done|]. by destruct (_get_neighbors maze cur).
Qed.

Lemma iter_Return_true (maze : Maze) (end_ : Pos) (st st' : state) :
  best_goal_cost st = None ->
  iter maze end_ st = Return true st' ->
  exists f k rest g,
    open_set st = (f, k, end_) :: rest /\
    g_score st !! end_ = Some g /\ g <= f /\
    best_goal_cost st' = Some g /\ g_score st' = g_score st.
Proof.
  intros Hb. unfold iter.
  destruct (open_set st) as [|[[f k] cur] rest]; simpl; [done|].
  destruct (g_score st !! cur) as [g|] eqn:Hg; [|done].
  rewrite Hb. unfold goal_check.
  destruct (decide (cur = end_)) as [->|]; simpl.
  - destruct (f >=? g) eqn:Hfg;
      [|by destruct (_get_neighbors maze end_)].
    intros [= <-]. exists f, k, rest, g. simpl.
    apply Z.geb_le in Hfg. done.
  - by destruct (_get_neighbors maze cur).
Qed.

Lemma open_cell_start (maze : Maze) (start end_ : Pos) :
  binary maze -> validate maze start end_ = Ok None -> open_cell maze start.
Proof.
  intros Hbin (Hs & _ & (vs & Hvs & Hvs1) & _)%validate_enters.
  by apply (open_cell_of_valid maze start vs).
Qed.

Lemma path_length_zero (maze : Maze) (a b : Pos) :
  path maze a b 0 -> a = b.
Proof. by inversion 1. Qed.

(** Every recorded cost is the length of a path from [start]. *)
Lemma loop_state_costs (maze : Maze) (start end_ : Pos) (st : state) :
  binary maze -> loop_state maze start end_ st ->
  forall p g, g_score st !! p = Some g ->
    0 <= g /\ path maze start p (Z.to_nat g).
Proof.
  intros Hbin. induction 1 as [Hval|st st' _ IH Hiter].
  - simpl. intros p g [<- <-]%lookup_singleton_Some. split; [done|].
    apply path_here. by eapply open_cell_start.
  - apply iter_Continue in Hiter
      as (f & k & cur & rest & cg & ns & _ & Hcg & _ & Hns & ->).
    destruct (IH cur cg Hcg) as [Hcg0 Hpath].
    apply (fold_left_preserves
             (fun s => forall p g, g_score s !! p = Some g ->
                         0 <= g /\ path maze start p (Z.to_nat g))
             (fun n => adjacent cur n /\ open_cell maze n)).
    + intros s n [Hadj Hopen] Hs p g.
      destruct (relax_cases end_ cg s n)
        as [[_ ->]|[(_ & _ & ->)|(_ & _ & ->)]]; simpl; [by apply Hs| |];
        (intros [[<- <-]|[_ Hp]]%lookup_insert_Some; [|by apply Hs]);
        (split; [lia|]);
        (replace (Z.to_nat (cg + 1)) with (S (Z.to_nat cg)) by lia);
        by eapply path_snoc.
    + rewrite Forall_forall. intros n Hn.
      by apply (elem_of_get_neighbors_Ok maze cur n ns Hns).
    + done.
Qed.

(** X6: every cost recorded in [g_score] is real: at the head of every
    iteration, on a binary grid, a recorded cost [g] for [p] is the number
    of steps of some path from [start] to [p]; so it is never negative and
    never below the Manhattan distance from [start]. *)
Theorem recorded_costs_are_path_lengths (maze : Maze) (start end_ : Pos)
    (st : state) (p : Pos) (g : Z) :
  binary maze -> loop_state maze start end_ st ->
  g_score st !! p = Some g ->
  0 <= g /\ path maze start p (Z.to_nat g) /\ _heuristic start p <= g.
Proof.
  intros Hbin Hst Hg.
  destruct (loop_state_costs maze start end_ st Hbin Hst p g Hg) as [H0 Hp].
  split; [done|]. split; [done|].
  apply heuristic_admissible_aux in Hp. lia.
Qed.

Lemma recorded_costs_are_path_lengths_witness :
  0 <= 0 /\ path maze_small (1, 1) (1, 1) (Z.to_nat 0) /\
  _heuristic (1, 1) (1, 1) <= 0.
Proof.
  apply (recorded_costs_are_path_lengths maze_small (1, 1) (1, 2)
           (init_state (1, 1)) (1, 1) 0).
  - repeat (constructor; [repeat (constructor; [by (left + right)|])|]);
      constructor.
  - apply loop_enter. vm_compute. reflexivity.
  - vm_compute. reflexivity.
Defined.

(** X7: when [find_path] returns true from its loop on a binary grid, the
    recorded [best_goal_cost] is the length of an actual path from [start]
    to [end_]: at least 1, at least the Manhattan distance, and so an upper
    bound of the shortest distance. *)
Theorem recorded_cost_is_a_path_length (fuel : nat) (maze : Maze)
    (start end_ : Pos) (st : state) :
  binary maze ->
  find_path_fuel fuel maze start end_ = Finished true (Some st) ->
  exists d,
    best_goal_cost st = Some d /\ g_score st !! end_ = Some d /\
    1 <= d /\ _heuristic start end_ <= d /\
    path maze start end_ (Z.to_nat d).
Proof.
  intros Hbin. unfold find_path_fuel.
  destruct (validate maze start end_) as [[b|]|e] eqn:Hval; [done| |done].
  intros Hsearch.
  apply (search_Finished_last (loop_state maze start end_)) in Hsearch
    as (last & st' & [= <-] & Hlast & Hret);
    [|intros; by eapply loop_next|by apply loop_enter].
  pose proof (loop_state_goal _ _ _ _ Hlast) as [Hb _].
  apply iter_Return_true in Hret
    as (f & k & rest & g & _ & Hg & _ & Hbest & Hsame); [|done].
  destruct (loop_state_costs maze start end_ last Hbin Hlast end_ g Hg)
    as [H0 Hp].
  exists g. rewrite Hsame. split; [done|]. split; [done|].
  pose proof (heuristic_admissible_aux _ _ _ _ Hp) as Hh.
  apply validate_enters in Hval as (_ & _ & _ & _ & Hne).
  assert (g <> 0) as Hg0.
  { intros ->. by apply path_length_zero in Hp. }
  repeat split; [lia|lia|done].
Qed.

Lemma recorded_cost_is_a_path_length_witness :
  exists st d,
    find_path_fuel 5 maze_small (1, 1) (1, 2) = Finished true (Some st) /\
    best_goal_cost st = Some d /\ g_score st !! (1, 2) = Some d /\
    1 <= d /\ _heuristic (1, 1) (1, 2) <= d /\
    path maze_small (1, 1) (1, 2) (Z.to_nat d).
Proof.
  eexists.
  match goal with
  | |- exists d, _ = Finished true (Some ?s) /\ _ =>
      assert (find_path_fuel 5 maze_small (1, 1) (1, 2)
              = Finished true (Some s)) as Hfp by (vm_compute; reflexivity)
  end.
  destruct (recorded_cost_is_a_path_length 5 maze_small (1, 1) (1, 2) _
              ltac:(repeat (constructor;
                      [repeat (constructor; [by (left + right)|])|]);
                    constructor) Hfp) as (d & Hd).
  exists d. split; [exact Hfp|exact Hd].
Defined.

(** ** How the best-cost map and the frontier evolve *)

Lemma relax_lowers (end_ : Pos) (cg : Z) (st : state) (n p : Pos) (g : Z) :
  (exists g', g_score st !! p = Some g' /\ g' <= g) ->
  exists g', g_score (relax end_ cg st n) !! p = Some g' /\ g' <= g.
Proof.
  intros (g' & Hg' & Hle).
  assert (improves (g_score st) n (cg + 1) = true ->
          exists g'', <[ n := cg + 1 ]> (g_score st) !! p = Some g''
                      /\ g'' <= g) as Hins.
  { intros Himp. destruct (decide (n = p)) as [->|Hne].
    - unfold improves in Himp. rewrite Hg' in Himp. apply Z.ltb_lt in Himp.
      exists (cg + 1). rewrite lookup_insert_eq. split; [done|lia].
    - exists g'. by rewrite lookup_insert_ne. }
  destruct (relax_cases end_ cg st n)
    as [[_ ->]|[(Himp & _ & ->)|(Himp & _ & ->)]]; simpl; eauto.
Qed.

Lemma iter_lowers (maze : Maze) (end_ : Pos) (st st' : state) (p : Pos)
    (g : Z) :
  iter maze end_ st = Continue st' ->
  (exists g', g_score st !! p = Some g' /\ g' <= g) ->
  exists g', g_score st' !! p = Some g' /\ g' <= g.
Proof.
  intros (f & k & cur & rest & cg & ns & _ & _ & _ & _ & ->)%iter_Continue Hp.
  apply (fold_left_preserves
           (fun s => exists g', g_score s !! p = Some g' /\ g' <= g)
           (fun _ => True)).
  - intros. by apply relax_lowers.
  - by apply Forall_true.
  - done.
Qed.

(** X8: the best-cost map only improves: a coordinate recorded with cost
    [g] is still recorded, with a cost of at most [g], after any number of
    further iterations. *)
Theorem g_score_only_improves (n : nat) (maze : Maze) (end_ : Pos)
    (st st' : state) (p : Pos) (g : Z) :
  iterate n maze end_ st = Some st' ->
  g_score st !! p = Some g ->
  exists g', g_score st' !! p = Some g' /\ g' <= g.
Proof.
  intros Hn Hg.
  cut (forall s, iterate n maze end_ s = Some st' ->
         (exists g', g_score s !! p = Some g' /\ g' <= g) ->
         exists g', g_score st' !! p = Some g' /\ g' <= g).
  { intros Hcut. apply (Hcut st Hn). exists g. split; [done|lia]. }
  clear. induction n as [|n IH]; intros s; simpl.
  - by intros [= <-].
  - destruct (iter maze end_ s) as [s'| |] eqn:Hiter; [|done..].
    intros Hn Hs. apply (IH s' Hn). by eapply iter_lowers.
Qed.

Lemma g_score_only_improves_witness :
  exists st',
    iterate 16 maze9 (0, 4) (init_state (8, 1)) = Some st' /\
    exists g', g_score st' !! (8, 1) = Some g' /\ g' <= 0.
Proof.
  eexists.
  match goal with
  | |- _ = Some ?s /\ _ =>
      assert (iterate 16 maze9 (0, 4) (init_state (8, 1)) = Some s) as Hit
        by (vm_compute; reflexivity)
  end.
  split; [exact Hit|].
  apply (g_score_only_improves 16 maze9 (0, 4) (init_state (8, 1)) _
           (8, 1) 0 Hit).
  vm_compute. reflexivity.
Defined.

Lemma tiebreakers_heappush (h : list Entry) (x : Entry) :
  tiebreakers (heappush h x) ≡ₚ x.1.2 :: tiebreakers h.
Proof.
  unfold tiebreakers.
  change (x.1.2 :: map (fun e : Entry => e.1.2) h)
    with (map (fun e : Entry => e.1.2) (x :: h)).
  apply Permutation_map, heappush_perm.
Qed.

Lemma elem_of_tiebreakers (h : list Entry) (k : Z) :
  k ∈ tiebreakers h <-> exists f p, (f, k, p) ∈ h.
Proof.
  unfold tiebreakers. rewrite list_elem_of_In, in_map_iff. split.
  - intros ([[f k'] p] & <- & Hin%list_elem_of_In). eauto.
  - intros (f & p & Hin%list_elem_of_In). by exists (f, k, p).
Qed.

(** X9: tie-breakers are unique: at the head of every iteration the
    entries of the frontier carry pairwise different tie-breakers, all of
    them from 0 up to but excluding [counter]; comparing two entries is
    therefore settled by [f] and the tie-breaker, and among equal [f] the
    earlier push is popped first. *)
Theorem tiebreakers_unique (maze : Maze) (start end_ : Pos) (st : state) :
  loop_state maze start end_ st ->
  NoDup (tiebreakers (open_set st)) /\
  (forall f k p, (f, k, p) ∈ open_set st -> 0 <= k < counter st) /\
  (forall f1 k1 p1 f2 k2 p2,
     (f1, k1, p1) ∈ open_set st -> (f2, k2, p2) ∈ open_set st ->
     (f1, k1, p1) <> (f2, k2, p2) ->
     entry_ltb (f1, k1, p1) (f2, k2, p2) =
     (f1 <? f2) || ((f1 =? f2) && (k1 <? k2))).
Proof.
  intros Hst.
  assert (NoDup (tiebreakers (open_set st)) /\ 0 <= counter st /\
          forall k, k ∈ tiebreakers (open_set st) -> 0 <= k < counter st)
    as (Hnd & _ & Hk).
  { induction Hst as [|st st' _ IH Hiter].
    - simpl. split; [apply NoDup_singleton|]. split; [lia|].
      intros k ->%list_elem_of_singleton. lia.
    - apply iter_Continue in Hiter
        as (f & k & cur & rest & cg & ns & Hopen & _ & _ & _ & ->).
      apply (fold_left_preserves
               (fun s => NoDup (tiebreakers (open_set s)) /\
                         0 <= counter s /\
                         forall k, k ∈ tiebreakers (open_set s) ->
                                   0 <= k < counter s)
               (fun _ => True)).
      + intros s n _ (Hnd & Hc & Hk).
        destruct (relax_cases end_ cg s n)
          as [[_ ->]|[(_ & _ & ->)|(_ & _ & ->)]]; simpl; [done..|].
        split; [|split; [lia|]].
        * rewrite tiebreakers_heappush. simpl. apply NoDup_cons.
          split; [|done]. intros Hin%Hk. lia.
        * intros k'. rewrite tiebreakers_heappush. simpl.
          intros [->|Hin%Hk]%elem_of_cons; lia.
      + by apply Forall_true.
      + simpl. destruct IH as (Hnd & Hc & Hk). rewrite Hopen in Hnd, Hk.
        simpl in Hnd, Hk. apply NoDup_cons in Hnd as [_ Hnd].
        split; [done|]. split; [done|]. intros k' Hin. apply Hk. by right. }
  split; [done|]. split.
  - intros f k p Hin. apply Hk, elem_of_tiebreakers. eauto.
  - intros f1 k1 p1 f2 k2 p2 H1 H2 Hne.
    assert (k1 <> k2) as Hk12.
    { intros ->. apply Hne.
      apply list_elem_of_lookup in H1 as [i1 H1].
      apply list_elem_of_lookup in H2 as [i2 H2].
      assert (i1 = i2) as ->; [|congruence].
      eapply NoDup_lookup; [exact Hnd| |]; unfold tiebreakers;
        rewrite list_lookup_fmap; [rewrite H1|rewrite H2]; done. }
    unfold entry_ltb.
    replace (k1 =? k2) with false by (symmetry; by apply Z.eqb_neq).
    simpl. by rewrite orb_false_r.
Qed.

Lemma tiebreakers_unique_witness :
  NoDup (tiebreakers (open_set (init_state (1, 1)))) /\
  (forall f k p, (f, k, p) ∈ open_set (init_state (1, 1)) ->
     0 <= k < counter (init_state (1, 1))) /\
  (forall f1 k1 p1 f2 k2 p2,
     (f1, k1, p1) ∈ open_set (init_state (1, 1)) ->
     (f2, k2, p2) ∈ open_set (init_state (1, 1)) ->
     (f1, k1, p1) <> (f2, k2, p2) ->
     entry_ltb (f1, k1, p1) (f2, k2, p2) =
     (f1 <? f2) || ((f1 =? f2) && (k1 <? k2))).
Proof.
  apply (tiebreakers_unique maze_small (1, 1) (1, 2)).
  apply loop_enter. vm_compute. reflexivity.
Defined.

(** X10: a frontier entry never underestimates: at the head of every
    iteration, the [f] of an entry for a coordinate [p] other than [start]
    is at least the recorded cost of [p] plus the heuristic of [p]; entries
    made stale by a later improvement are too large, never too small. *)
Theorem entries_never_underestimate (maze : Maze) (start end_ : Pos)
    (st : state) (f k : Z) (p : Pos) :
  loop_state maze start end_ st ->
  (f, k, p) ∈ open_set st -> p <> start ->
  exists g, g_score st !! p = Some g /\ g + _heuristic p end_ <= f.
Proof.
  intros Hst. revert f k p.
  induction Hst as [|st st' _ IH Hiter]; intros f k p.
  - simpl. intros [= _ _ ->]%list_elem_of_singleton. done.
  - apply iter_Continue in Hiter
      as (f0 & k0 & cur & rest & cg & ns & Hopen & _ & _ & _ & ->).
    revert f k p.
    apply (fold_left_preserves
             (fun s => forall f k p, (f, k, p) ∈ open_set s -> p <> start ->
                exists g, g_score s !! p = Some g /\
                          g + _heuristic p end_ <= f)
             (fun _ => True)).
    + intros s n _ Hs f k p.
      assert (improves (g_score s) n (cg + 1) = true ->
              (f, k, p) ∈ open_set s -> p <> start ->
              exists g, <[ n := cg + 1 ]> (g_score s) !! p = Some g /\
                        g + _heuristic p end_ <= f) as Hold.
      { intros Himp Hin Hne. destruct (Hs f k p Hin Hne) as (g & Hg & Hle).
        destruct (decide (n = p)) as [->|Hnp].
        - unfold improves in Himp. rewrite Hg in Himp.
          apply Z.ltb_lt in Himp. exists (cg + 1).
          rewrite lookup_insert_eq. split; [done|lia].
        - exists g. by rewrite lookup_insert_ne. }
      destruct (relax_cases end_ cg s n)
        as [[_ ->]|[(Himp & _ & ->)|(Himp & _ & ->)]]; simpl;
        [by apply Hs|by apply Hold|].
      intros [[= -> _ ->]|Hin]%elem_of_heappush Hne; [|by apply Hold].
      exists (cg + 1). by rewrite lookup_insert_eq.
    + by apply Forall_true.
    + simpl. intros f k p Hin. apply (IH f k p). rewrite Hopen. by right.
Qed.

Lemma entries_never_underestimate_witness :
  exists st,
    iterate 1 maze_small (1, 2) (init_state (1, 1)) = Some st /\
    exists g, g_score st !! (1, 2) = Some g /\
              g + _heuristic (1, 2) (1, 2) <= 1.
Proof.
  eexists.
  match goal with
  | |- _ = Some ?s /\ _ =>
      assert (iterate 1 maze_small (1, 2) (init_state (1, 1)) = Some s)
        as Hit by (vm_compute; reflexivity)
  end.
  split; [exact Hit|].
  apply (entries_never_underestimate maze_small (1, 1) (1, 2) _ 1 1 (1, 2)).
  - eapply loop_next; [apply loop_enter|]; vm_compute; reflexivity.
  - vm_compute. apply list_elem_of_singleton. reflexivity.
  - discriminate.
Defined.

(** ** Exhaustive exploration *)

Lemma exhausted_records_all (maze : Maze) (start end_ : Pos) (st : state)
    (p : Pos) :
  search_inv_holds maze start end_ st -> open_set st = [] ->
  connected maze start p -> is_Some (g_score st !! p).
Proof.
  intros ([Hh _ _] & _ & [Hs Hsound Hclosed Hgoal]) Hopen [n Hp].
  rewrite Hopen in Hh. simpl in Hh.
  assert (forall q, q ∉ open_set_hash st) as Hempty
    by (intros q; rewrite Hh; apply not_elem_of_empty).
  assert (forall a b n, path maze a b n ->
            is_Some (g_score st !! a) -> is_Some (g_score st !! b)) as Hall.
  { induction 1 as [|a b c m Ha Hab Hbc IH]; [done|]. intros Hrec.
    apply IH, (Hclosed a b); try done. by eapply path_open_l. }
  eauto.
Qed.

(** X11: a search that fails has looked everywhere: when [find_path]
    returns false from its loop on a rectangular binary grid, the frontier
    is empty, no goal cost is recorded, and the coordinates recorded in
    [g_score] are exactly the cells connected to [start]. *)
Theorem failed_search_is_exhaustive (fuel : nat) (maze : Maze)
    (start end_ : Pos) (st : state) :
  rectangular maze -> binary maze ->
  find_path_fuel fuel maze start end_ = Finished false (Some st) ->
  open_set st = [] /\ best_goal_cost st = None /\
  forall p, is_Some (g_score st !! p) <-> connected maze start p.
Proof.
  intros Hrect Hbin. unfold find_path_fuel.
  destruct (validate maze start end_) as [[b|]|e] eqn:Hval; [done| |done].
  intros Hsearch.
  apply (search_Finished_last (search_inv_holds maze start end_)) in Hsearch
    as (last & st' & [= <-] & Hlast & Hret).
  - apply iter_Return_false in Hret as [-> Hopen].
    split; [done|]. split; [apply Hlast|].
    intros p. split; [apply Hlast|]. by eapply exhausted_records_all.
  - intros. by eapply search_inv_iter.
  - apply search_inv_init; [by eapply open_cell_start|].
    by apply validate_enters in Hval as (_ & _ & _ & _ & ?).
Qed.

Lemma failed_search_is_exhaustive_witness :
  exists st,
    find_path_fuel 5 maze_split (0, 0) (0, 2) = Finished false (Some st) /\
    open_set st = [] /\ best_goal_cost st = None /\
    forall p, is_Some (g_score st !! p) <-> connected maze_split (0, 0) p.
Proof.
  eexists.
  match goal with
  | |- _ = Finished false (Some ?s) /\ _ =>
      assert (find_path_fuel 5 maze_split (0, 0) (0, 2)
              = Finished false (Some s)) as Hfp by (vm_compute; reflexivity)
  end.
  split; [exact Hfp|].
  apply (failed_search_is_exhaustive 5 maze_split (0, 0) (0, 2)).
  - repeat constructor.
  - repeat (constructor; [repeat (constructor; [by (left + right)|])|]);
      constructor.
  - exact Hfp.
Defined.

(** ** Grids that break the precondition *)

(** X12: on a grid that is not rectangular a query can raise: if the query
    passes the validation and one of the four cells around [start] is in
    bounds (by the length of the first row) but beyond the end of its own
    row, as it is above an empty row left by a blank line, then the first
    iteration of [find_path] raises [IndexError]. *)
Theorem find_path_raises_on_short_row (fuel : nat) (maze : Maze)
    (start end_ q : Pos) (row : list Z) :
  validate maze start end_ = Ok None ->
  q ∈ candidates start -> in_bounds maze q = true ->
  maze !! Z.to_nat q.1 = Some row -> Z.of_nat (length row) <= q.2 ->
  find_path_fuel (S fuel) maze start end_ = Raised IndexError.
Proof.
  intros Hval Hq Hb Hrow Hlen. unfold find_path_fuel. rewrite Hval.
  apply validate_enters in Hval as (_ & _ & _ & _ & Hne).
  simpl. unfold iter. simpl. rewrite lookup_singleton_eq.
  unfold goal_check. rewrite decide_False by done. simpl.
  by rewrite (get_neighbors_short_row maze start q row).
Qed.

Lemma find_path_raises_on_short_row_witness :
  find_path_fuel 1 maze_ragged (0, 0) (0, 1) = Raised IndexError.
Proof.
  apply (find_path_raises_on_short_row 0 maze_ragged (0, 0) (0, 1) (1, 0) []).
  - vm_compute. reflexivity.
  - vm_compute. apply list_elem_of_In. simpl. tauto.
  - reflexivity.
  - reflexivity.
  - simpl. lia.
Defined.

(** X13: a grid without columns (no rows at all, or an empty first row)
    answers false to every query, without reading a cell, and no position
    has a neighbour. *)
Theorem no_columns_rejects_all (maze : Maze) :
  cols maze = 0 ->
  (forall fuel start end_,
     find_path_fuel fuel maze start end_ = Finished false None) /\
  (forall p, _get_neighbors maze p = Ok []).
Proof.
  intros Hc.
  assert (forall p, in_bounds maze p = false) as Hout.
  { intros p. unfold in_bounds. rewrite Hc. apply andb_false_iff. right.
    apply andb_false_iff.
    destruct (0 <=? p.2) eqn:H0; [right|by left].
    apply Z.leb_le in H0. apply Z.ltb_ge. lia. }
  split.
  - intros fuel start end_. unfold find_path_fuel, validate.
    by rewrite Hout.
  - intros p. unfold _get_neighbors, directions. simpl.
    by rewrite !Hout.
Qed.

Lemma no_columns_rejects_all_witness :
  (forall fuel start end_,
     find_path_fuel fuel maze_hollow start end_ = Finished false None) /\
  (forall p, _get_neighbors maze_hollow p = Ok []).
Proof.
  apply (no_columns_rejects_all maze_hollow). reflexivity.
Defined.

(** ** The answer on any grid of integers *)

Lemma trail_inv_relax (maze : Maze) (start end_ current : Pos) (cg : Z)
    (st : state) (n : Pos) :
  trail maze start current ->
  adjacent current n /\ open_cell maze n ->
  trail_inv maze start end_ (Some current) st ->
  trail_inv maze start end_ (Some current) (relax end_ cg st n).
Proof.
  intros Hcur Hstep [Hs Hsound Hclosed Hgoal].
  assert (trail maze start n) as Hn by (eapply rtc_r; [exact Hcur|exact Hstep]).
  destruct (relax_cases end_ cg st n)
    as [[_ ->]|[(_ & Hin & ->)|(_ & Hin & ->)]]; [done| |]; split; simpl.
  - apply lookup_insert_is_Some'. by right.
  - intros p [->|Hp]%lookup_insert_is_Some'; auto.
  - intros p q [->|Hp]%lookup_insert_is_Some' Hne Hnotin Hpq Hq; [done|].
    apply lookup_insert_is_Some'. right. eauto.
  - intros [->|He]%lookup_insert_is_Some'; auto.
  - apply lookup_insert_is_Some'. by right.
  - intros p [->|Hp]%lookup_insert_is_Some'; auto.
  - intros p q [->|Hp]%lookup_insert_is_Some' Hne Hnotin Hpq Hq.
    + exfalso. apply Hnotin, elem_of_union_l, elem_of_singleton. done.
    + apply lookup_insert_is_Some'. right.
      apply (Hclosed p q); try done.
      intros ?. apply Hnotin, elem_of_union_r. done.
  - intros [->|He]%lookup_insert_is_Some'.
    + by apply elem_of_union_l, elem_of_singleton.
    + by apply elem_of_union_r, Hgoal.
Qed.

Lemma trail_inv_iter (maze : Maze) (start end_ : Pos) (st st' : state) :
  trail_inv_holds maze start end_ st ->
  iter maze end_ st = Continue st' ->
  trail_inv_holds maze start end_ st'.
Proof.
  intros (Hfi & Hgi & Hri) Hiter.
  split; [by eapply frontier_inv_iter|]. split; [by eapply goal_inv_iter|].
  pose proof Hiter as
    (f & k & cur & rest & g & ns & Hopen & Hg & Hstop & Hns & ->)%iter_Continue.
  assert (cur <> end_) as Hne.
  { intros ->. destruct (goal_inv_pop_goal maze end_ st f k rest) as [? Hret];
      [done..|]. congruence. }
  assert (trail maze start cur) as Hcur by (apply Hri; eauto).
  match goal with |- context [fold_left _ _ ?s] => set (st1 := s) end.
  assert (trail_inv maze start end_ (Some cur)
            (fold_left (relax end_ g) ns st1)) as [Hs Hsound Hclosed Hgoal].
  { apply (fold_left_preserves (trail_inv maze start end_ (Some cur))
             (fun n => adjacent cur n /\ open_cell maze n)).
    - intros. by apply trail_inv_relax.
    - rewrite Forall_forall. intros n Hn.
      by apply (elem_of_get_neighbors_Ok maze cur n ns Hns).
    - destruct Hri as [Hs Hsound Hclosed Hgoal]. split; simpl; [done..| |].
      + intros p q Hp Hpc Hnotin. apply Hclosed; [done..|].
        intros Hin. apply Hnotin, elem_of_difference. split; [done|].
        rewrite elem_of_singleton. congruence.
      + intros He. apply elem_of_difference. split; [auto|].
        rewrite elem_of_singleton. congruence. }
  split; [done..| |done].
  intros p q Hp _ Hnotin Hpq Hq.
  destruct (decide (p = cur)) as [->|Hpc].
  - apply fold_relax_recorded.
    by apply (elem_of_get_neighbors_Ok maze cur q ns Hns).
  - apply (Hclosed p q); try done. congruence.
Qed.

Lemma trail_inv_init (maze : Maze) (start end_ : Pos) :
  start <> end_ -> trail_inv_holds maze start end_ (init_state start).
Proof.
  intros Hne.
  split; [apply frontier_inv_init|]. split; [by apply goal_inv_init|].
  split; simpl.
  - by rewrite lookup_singleton_eq.
  - intros p [v [<- _]%lookup_singleton_Some]. apply rtc_refl.
  - intros p q [v [<- _]%lookup_singleton_Some] _ Hnotin.
    exfalso. by apply Hnotin, elem_of_singleton.
  - intros [v [? _]%lookup_singleton_Some]. done.
Qed.

Lemma trail_iter_Return (maze : Maze) (start end_ : Pos) (st st' : state)
    (b : bool) :
  trail_inv_holds maze start end_ st ->
  iter maze end_ st = Return b st' ->
  (b = true <-> trail maze start end_).
Proof.
  intros ([Hh _ _] & [Hb He] & [Hs Hsound Hclosed Hgoal]) Hiter.
  destruct b.
  - split; [|done]. intros _.
    apply iter_Return_true in Hiter as (f & k & rest & g & _ & Hg & _);
      [|done].
    apply Hsound. eauto.
  - split; [done|]. intros Htrail. exfalso.
    apply iter_Return_false in Hiter as [_ Hopen].
    rewrite Hopen in Hh. simpl in Hh.
    assert (forall q, q ∉ open_set_hash st) as Hempty
      by (intros q; rewrite Hh; apply not_elem_of_empty).
    assert (forall a b, trail maze a b ->
              is_Some (g_score st !! a) -> is_Some (g_score st !! b)) as Hall.
    { induction 1 as [|a b c [Hab Hb'] _ IH]; [done|]. intros Hrec.
      apply IH, (Hclosed a b); done. }
    eapply Hempty, Hgoal, Hall; eauto.
Qed.

Lemma find_path_fuel_trail (fuel : nat) (maze : Maze) (start end_ : Pos)
    (b : bool) (final : option state) :
  validate maze start end_ = Ok None ->
  find_path_fuel fuel maze start end_ = Finished b final ->
  (b = true <-> trail maze start end_).
Proof.
  intros Hval. unfold find_path_fuel. rewrite Hval. intros Hsearch.
  apply (search_Finished_last (trail_inv_holds maze start end_)) in Hsearch
    as (last & st' & _ & Hlast & Hret).
  - by eapply trail_iter_Return.
  - intros. by eapply trail_inv_iter.
  - apply trail_inv_init.
    by apply validate_enters in Hval as (_ & _ & _ & _ & ?).
Qed.

(** X14: what [find_path] computes on any grid of integers, binary or not:
    for a query that passes the validation (both endpoints in bounds, neither
    holding 1, and different), whenever the call returns it returns true
    exactly if [end_] is reached from [start] by steps into cells holding 0;
    what the cell at [start] holds plays no part.  On a rectangular grid the
    call does return. *)
Theorem find_path_follows_zero_cells (maze : Maze) (start end_ : Pos) :
  validate maze start end_ = Ok None ->
  (forall fuel b final,
     find_path_fuel fuel maze start end_ = Finished b final ->
     (b = true <-> trail maze start end_)) /\
  (rectangular maze ->
   (answer (find_path maze start end_) = Some true <->
      trail maze start end_) /\
   (answer (find_path maze start end_) = Some false <->
      ~ trail maze start end_)).
Proof.
  intros Hval. split.
  - intros fuel b final. by apply find_path_fuel_trail.
  - intros Hrect.
    destruct (find_path_finishes maze start end_ Hrect)
      as (b & final & Hfp & Hans).
    apply find_path_fuel_trail in Hfp; [|done]. rewrite Hans.
    split; rewrite <- Hfp; destruct b; split; congruence.
Qed.

Lemma find_path_follows_zero_cells_witness :
  (forall fuel b final,
     find_path_fuel fuel maze_odd (0, 0) (1, 1) = Finished b final ->
     (b = true <-> trail maze_odd (0, 0) (1, 1))) /\
  (rectangular maze_odd ->
   (answer (find_path maze_odd (0, 0) (1, 1)) = Some true <->
      trail maze_odd (0, 0) (1, 1)) /\
   (answer (find_path maze_odd (0, 0) (1, 1)) = Some false <->
      ~ trail maze_odd (0, 0) (1, 1))).
Proof.
  apply (find_path_follows_zero_cells maze_odd (0, 0) (1, 1)).
  vm_compute. reflexivity.
Defined.

Lemma validate_Some_true (maze : Maze) (start end_ : Pos) :
  validate maze start end_ = Ok (Some true) -> start = end_.
Proof.
  unfold validate.
  destruct (in_bounds maze start); [|done].
  destruct (in_bounds maze end_); [|done]. simpl.
  destruct (cell maze start.1 start.2) as [vs|]; [|done]. simpl.
  destruct (vs =? 1); [done|].
  destruct (cell maze end_.1 end_.2) as [ve|]; [|done]. simpl.
  destruct (ve =? 1); [done|].
  by destruct (decide (start = end_)).
Qed.

Lemma trail_end_open (maze : Maze) (a b : Pos) :
  trail maze a b -> a <> b -> open_cell maze b.
Proof.
  intros [->|(c & _ & [_ Hb])]%rtc_inv_r Hne; done.
Qed.

Lemma find_path_closed_end (maze : Maze) (start end_ : Pos) :
  rectangular maze -> start <> end_ ->
  cell maze end_.1 end_.2 <> Ok 0 ->
  answer (find_path maze start end_) = Some false.
Proof.
  intros Hrect Hne Hend.
  destruct (find_path_finishes maze start end_ Hrect)
    as (b & final & Hfp & Hans).
  rewrite Hans. f_equal. destruct b; [exfalso|done].
  destruct (validate maze start end_) as [[b|]|e] eqn:Hval.
  - unfold find_path, find_path_fuel in Hfp. rewrite Hval in Hfp.
    injection Hfp as -> _. by apply validate_Some_true in Hval.
  - apply find_path_fuel_trail in Hfp; [|done].
    destruct Hfp as [Htrail _].
    destruct (trail_end_open maze start end_) as [_ Hopen]; auto.
  - unfold find_path, find_path_fuel in Hfp. by rewrite Hval in Hfp.
Qed.



(** X16: without the binary precondition the answer is not symmetric: on a
    rectangular grid, from an in-bounds cell holding neither 0 nor 1 to an
    adjacent cell holding 0 the answer is true, and in the opposite
    direction it is false. *)
Theorem find_path_asymmetric_off_binary (maze : Maze) (a b : Pos) (v : Z) :
  rectangular maze ->
  in_bounds maze a = true -> cell maze a.1 a.2 = Ok v -> v <> 0 -> v <> 1 ->
  open_cell maze b -> adjacent a b ->
  answer (find_path maze a b) = Some true /\
  answer (find_path maze b a) = Some false.
Proof.
  intros Hrect Ha Hv Hv0 Hv1 [Hb Hcb] Hadj.
  assert (a <> b) as Hne.
  { intros ->. destruct b. unfold adjacent in Hadj. simpl in Hadj. lia. }
  split.
  - destruct (find_path_finishes maze a b Hrect) as (r & final & Hfp & Hans).
    rewrite Hans. f_equal.
    assert (validate maze a b = Ok None) as Hval.
    { unfold validate. rewrite Ha, Hb, Hv, Hcb. simpl.
      replace (v =? 1) with false by (symmetry; by apply Z.eqb_neq).
      by rewrite decide_False. }
    apply (find_path_fuel_trail _ maze a b r final Hval Hfp).
    apply rtc_once. by split.
  - apply find_path_closed_end; [done|congruence|]. rewrite Hv. congruence.
Qed.

Lemma find_path_asymmetric_off_binary_witness :
  answer (find_path maze_odd (0, 0) (0, 1)) = Some true /\
  answer (find_path maze_odd (0, 1) (0, 0)) = Some false.
Proof.
  apply (find_path_asymmetric_off_binary maze_odd (0, 0) (0, 1) 2).
  - repeat constructor.
  - reflexivity.
  - reflexivity.
  - discriminate.
  - discriminate.
  - split; reflexivity.
  - reflexivity.
Defined.

(** ** The loader *)

Lemma parse_tokens_Some (int : string -> option Z) (tokens : list string)
    (row : list Z) :
  parse_tokens int tokens = Some row <->
  Forall2 (fun x v => int x = Some v) tokens row.
Proof.
  revert row. induction tokens as [|x tokens IH]; intros row; simpl.
  - split; [intros [= <-]; constructor|by intros ->%Forall2_nil_inv_l].
  - destruct (int x) as [v|] eqn:Hx.
    + destruct (parse_tokens int tokens) as [row'|] eqn:Hrow.
      * split.
        -- intros [= <-]. constructor; [done|by apply IH].
        -- intros (v' & row'' & Hv & Hrest & ->)%Forall2_cons_inv_l.
           apply IH in Hrest. congruence.
      * split; [done|].
        intros (v' & row'' & _ & Hrest & _)%Forall2_cons_inv_l.
        by apply IH in Hrest.
    + split; [done|].
      intros (v' & row'' & Hv & _)%Forall2_cons_inv_l. congruence.
Qed.

Lemma parse_tokens_None (int : string -> option Z) (tokens : list string) :
  parse_tokens int tokens = None <-> exists x, x ∈ tokens /\ int x = None.
Proof.
  induction tokens as [|x tokens IH]; simpl.
  - split; [done|]. by intros (x & ?%elem_of_nil & _).
  - destruct (int x) as [v|] eqn:Hx.
    + destruct (parse_tokens int tokens) as [row'|].
      * split; [done|]. intros (y & [->|Hy]%elem_of_cons & Hn); [congruence|].
        destruct IH as [_ IH]. by discriminate IH; eauto.
      * split; [|done]. intros _. destruct IH as [(y & Hy & Hn) _]; [done|].
        exists y. split; [by right|done].
    + split; [|done]. intros _. exists x. split; [by left|done].
Qed.

Lemma load_lines_Some (split : string -> list string)
    (int : string -> option Z) (lines : list string) (acc maze : Maze) :
  load_lines split int lines acc = Some maze <->
  exists rows_,
    maze = acc ++ rows_ /\
    Forall2 (fun line row => parse_tokens int (split line) = Some row)
            lines rows_.
Proof.
  revert acc. induction lines as [|line lines IH]; intros acc; simpl.
  - split.
    + intros [= <-]. exists []. by rewrite app_nil_r.
    + intros (rows_ & -> & ->%Forall2_nil_inv_l). by rewrite app_nil_r.
  - destruct (parse_tokens int (split line)) as [row|] eqn:Hrow.
    + rewrite IH. split.
      * intros (rows_ & -> & Hall). exists (row :: rows_).
        rewrite <- app_assoc. split; [done|]. by constructor.
      * intros (rows_ & -> & (row' & rows' & Hr & Hall & ->)%Forall2_cons_inv_l).
        exists rows'. rewrite <- app_assoc. split; [|done].
        simpl. congruence.
    + split; [done|].
      intros (rows_ & _ & (row' & rows' & Hr & _)%Forall2_cons_inv_l).
      congruence.
Qed.

Lemma load_maze_Some (split : string -> list string)
    (int : string -> option Z) (lines : list string) (maze : Maze) :
  _load_maze split int lines = Some maze <->
  Forall2 (fun line row =>
             Forall2 (fun x v => int x = Some v) (split line) row)
          lines maze.
Proof.
  unfold _load_maze. rewrite load_lines_Some. split.
  - intros (rows_ & -> & Hall). simpl.
    eapply Forall2_impl; [exact Hall|]. intros line row.
    by rewrite parse_tokens_Some.
  - intros Hall. exists maze. split; [done|].
    eapply Forall2_impl; [exact Hall|]. intros line row.
    by rewrite parse_tokens_Some.
Qed.

(** X17: the loader keeps the shape of the file: when it returns, the maze
    has one row per line and row [i] holds, in order, the integers of the
    tokens of line [i]; it raises ([None]) exactly when some token of some
    line is refused by [int]. *)
Theorem load_maze_shape (split : string -> list string)
    (int : string -> option Z) (lines : list string) :
  (forall maze,
     _load_maze split int lines = Some maze <->
     Forall2 (fun line row =>
                Forall2 (fun x v => int x = Some v) (split line) row)
             lines maze) /\
  (_load_maze split int lines = None <->
   exists line x, line ∈ lines /\ x ∈ split line /\ int x = None).
Proof.
  split; [intros maze; apply load_maze_Some|].
  unfold _load_maze. generalize (@nil (list Z)).
  induction lines as [|line lines IH]; intros acc; simpl.
  - split; [done|]. by intros (line & x & ?%elem_of_nil & _).
  - destruct (parse_tokens int (split line)) as [row|] eqn:Hrow.
    + rewrite IH. split.
      * intros (l & x & Hl & Hx). exists l, x. split; [by right|done].
      * intros (l & x & [->|Hl]%elem_of_cons & Hx & Hn); [|by eauto].
        assert (parse_tokens int (split line) = None)
          by (apply parse_tokens_None; eauto).
        congruence.
    + split; [|done]. intros _.
      apply parse_tokens_None in Hrow as (x & Hx & Hn).
      exists line, x. split; [by left|done].
Qed.

(** X18: a well-formed file gives a grid the search accepts: if every line
    splits into exactly [n] tokens and [int] reads each as 0 or 1, the
    loader returns a rectangular binary maze with one row per line and, when
    there is a line, [n] columns; on it every query is answered without an
    exception. *)
Theorem load_maze_well_formed (split : string -> list string)
    (int : string -> option Z) (lines : list string) (n : nat) :
  (forall line, line ∈ lines ->
     length (split line) = n /\
     forall x, x ∈ split line -> int x = Some 0 \/ int x = Some 1) ->
  exists maze,
    _load_maze split int lines = Some maze /\
    rows maze = Z.of_nat (length lines) /\
    (lines <> [] -> cols maze = Z.of_nat n) /\
    rectangular maze /\ binary maze /\
    forall start end_,
      exists b, answer (find_path maze start end_) = Some b.
Proof.
  intros Hlines.
  assert (exists maze,
            Forall2 (fun line row =>
                       Forall2 (fun x v => int x = Some v) (split line) row)
                    lines maze) as [maze Hall].
  { induction lines as [|line lines IH]; [by exists []|].
    destruct IH as [maze Hmaze].
    { intros l Hl. apply Hlines. by right. }
    destruct (Hlines line) as [_ Htok]; [by left|].
    assert (exists row, Forall2 (fun x v => int x = Some v) (split line) row)
      as [row Hrow].
    { induction (split line) as [|x tokens IHt]; [by exists []|].
      destruct IHt as [row Hrow]; [intros y Hy; apply Htok; by right|].
      destruct (Htok x) as [Hx|Hx]; [by left| |];
        eexists (_ :: row); constructor; eauto. }
    exists (row :: maze). by constructor. }
  assert (Forall (fun row => length row = n /\
                             Forall (fun v => v = 0 \/ v = 1) row) maze)
    as Hrows.
  { clear -Hall Hlines. induction Hall as [|line row lines maze Hrow _ IH];
      [constructor|].
    constructor.
    - destruct (Hlines line) as [Hlen Htok]; [by left|].
      split; [by rewrite <- (Forall2_length _ _ _ Hrow)|].
      clear Hlen. induction Hrow as [|x v tokens row Hx _ IHr]; [constructor|].
      constructor.
      + destruct (Htok x) as [H|H]; [by left| |]; rewrite Hx in H;
          injection H as ->; auto.
      + apply IHr. intros y Hy. apply Htok. by right.
    - apply IH. intros l Hl. apply Hlines. by right. }
  assert (rectangular maze) as Hrect.
  { unfold rectangular, cols. destruct maze as [|row0 maze]; [constructor|].
    apply Forall_cons in Hrows as [[Hlen0 _] Hrows].
    constructor; [done|]. eapply Forall_impl; [exact Hrows|].
    intros row [Hlen _]. simpl in *. congruence. }
  exists maze. split; [by apply load_maze_Some|].
  split; [unfold rows; by rewrite (Forall2_length _ _ _ Hall)|].
  split.
  { intros Hne. unfold cols. destruct Hall as [|? row0]; [done|].
    apply Forall_cons in Hrows as [[Hlen0 _] _]. by rewrite Hlen0. }
  split; [done|]. split.
  { unfold binary. eapply Forall_impl; [exact Hrows|]. by intros row [_ ?]. }
  intros start end_.
  destruct (find_path_finishes maze start end_ Hrect) as (b & _ & _ & Hans).
  eauto.
Qed.

Lemma load_maze_well_formed_witness :
  exists maze,
    _load_maze one_token int01 ["0"%string; "1"%string] = Some maze /\
    rows maze = Z.of_nat (length ["0"%string; "1"%string]) /\
    (["0"%string; "1"%string] <> [] -> cols maze = Z.of_nat 1) /\
    rectangular maze /\ binary maze /\
    forall start end_,
      exists b, answer (find_path maze start end_) = Some b.
Proof.
  apply (load_maze_well_formed one_token int01 ["0"%string; "1"%string] 1).
  intros line [->|[->|[]%elem_of_nil]%elem_of_cons]%elem_of_cons;
    (split; [reflexivity|]);
    intros x ->%list_elem_of_singleton; [left|right]; reflexivity.
Defined.

(** X19: a blank line spoils the grid: the loader turns a line without
    tokens into an empty row, so a file whose first line has tokens and
    which has a blank line (a trailing one, say) loads into a maze that is
    not rectangular. *)
Theorem blank_line_breaks_rectangle (split : string -> list string)
    (int : string -> option Z) (lines : list string) (maze : Maze)
    (i : nat) (line : string) :
  _load_maze split int lines = Some maze ->
  lines !! i = Some line -> split line = [] ->
  maze !! i = Some [] /\ (0 < cols maze -> ~ rectangular maze).
Proof.
  intros Hall%load_maze_Some Hline Hblank.
  assert (maze !! i = Some []) as Hrow.
  { destruct (Forall2_lookup_l _ _ _ _ _ Hall Hline) as (row & Hrow & Htok).
    rewrite Hblank in Htok. by apply Forall2_nil_inv_l in Htok as ->. }
  split; [done|]. intros Hcols Hrect.
  unfold rectangular in Hrect. rewrite Forall_forall in Hrect.
  specialize (Hrect [] (list_elem_of_lookup_2 _ _ _ Hrow)).
  simpl in Hrect. lia.
Qed.

Lemma blank_line_breaks_rectangle_witness :
  [ [0]; [] ] !! 1%nat = Some [] /\
  (0 < cols [ [0]; [] ] -> ~ rectangular [ [0]; [] ]).
Proof.
  apply (blank_line_breaks_rectangle one_token int01
           ["0"%string; EmptyString] [ [0]; [] ] 1 EmptyString);
    reflexivity.
Defined.

(** ** Adjacent endpoints *)

Lemma heuristic_zero (p q : Pos) : _heuristic p q <= 0 -> p = q.
Proof.
  destruct p, q. unfold _heuristic. simpl. intros H. f_equal; lia.
Qed.

Lemma entry_leb_f (f1 k1 f2 k2 : Z) (p1 p2 : Pos) :
  entry_leb (f1, k1, p1) (f2, k2, p2) = true -> f1 <= f2.
Proof.
  unfold entry_leb, entry_ltb. rewrite negb_true_iff.
  destruct (f2 <? f1) eqn:Hlt; [done|]. apply Z.ltb_ge in Hlt. done.
Qed.

(** The frontier after the first iteration: one entry per recorded
    neighbour of [start], each with cost 1. *)
Lemma first_iteration_fold (maze : Maze) (start end_ : Pos) (ns : list Pos)
    (st1 : state) :
  Forall (fun n => adjacent start n) ns ->
  open_set st1 = [] -> g_score st1 = {[ start := 0 ]} ->
  (forall p, p ∉ open_set_hash st1) ->
  let s := fold_left (relax end_ 0) ns st1 in
  (forall f k p, (f, k, p) ∈ open_set s -> f = 1 + _heuristic p end_) /\
  (forall p v, g_score s !! p = Some v ->
     p = start /\ v = 0 \/
     v = 1 /\ exists k, (1 + _heuristic p end_, k, p) ∈ open_set s).
Proof.
  intros Hns Hopen Hg Hhash. simpl.
  cut ((forall f k p, (f, k, p) ∈ open_set (fold_left (relax end_ 0) ns st1)
          -> f = 1 + _heuristic p end_) /\
       (forall p v, g_score (fold_left (relax end_ 0) ns st1) !! p = Some v ->
          p = start /\ v = 0 \/
          v = 1 /\ exists k, (1 + _heuristic p end_, k, p)
                             ∈ open_set (fold_left (relax end_ 0) ns st1)) /\
       (forall p, p ∈ open_set_hash (fold_left (relax end_ 0) ns st1) ->
          is_Some (g_score (fold_left (relax end_ 0) ns st1) !! p)));
    [tauto|].
  apply (fold_left_preserves
           (fun s =>
              (forall f k p, (f, k, p) ∈ open_set s ->
                 f = 1 + _heuristic p end_) /\
              (forall p v, g_score s !! p = Some v ->
                 p = start /\ v = 0 \/
                 v = 1 /\ exists k, (1 + _heuristic p end_, k, p)
                                    ∈ open_set s) /\
              (forall p, p ∈ open_set_hash s -> is_Some (g_score s !! p)))
           (fun n => adjacent start n)); [|done|].
  - intros s n Hadj (P1 & P2 & P3).
    assert (n <> start) as Hne.
    { intros ->. destruct start. unfold adjacent in Hadj. simpl in Hadj. lia. }
    destruct (relax_cases end_ 0 s n)
      as [[_ ->]|[(Himp & Hin & ->)|(Himp & Hin & ->)]]; simpl; [done| |].
    + exfalso. destruct (P3 n Hin) as [old Hold].
      unfold improves in Himp. rewrite Hold in Himp.
      apply Z.ltb_lt in Himp.
      destruct (P2 n old Hold) as [[? _]|[-> _]]; [done|lia].
    + split; [|split].
      * intros f k p [[= -> _ ->]|Hp]%elem_of_heappush; [done|eauto].
      * intros p v [[<- <-]|[Hnp Hp]]%lookup_insert_Some.
        -- right. split; [done|]. exists (counter s).
           apply elem_of_heappush. by left.
        -- destruct (P2 p v Hp) as [?|[-> [k Hk]]]; [by left|right].
           split; [done|]. exists k. apply elem_of_heappush. by right.
      * intros p [->%elem_of_singleton|Hp]%elem_of_union;
          apply lookup_insert_is_Some'; [by left|right; auto].
  - rewrite Hopen, Hg. split; [|split].
    + by intros f k p ?%elem_of_nil.
    + intros p v [<- <-]%lookup_singleton_Some. by left.
    + intros p Hp. by apply Hhash in Hp.
Qed.

(** X20: adjacent endpoints get the right distance: on a rectangular grid,
    for a query that passes the validation with [end_] one step from
    [start] and holding 0, [find_path] returns true in its second iteration
    with [best_goal_cost = 1]. *)
Theorem adjacent_endpoints_cost_one (fuel : nat) (maze : Maze)
    (start end_ : Pos) :
  rectangular maze -> validate maze start end_ = Ok None ->
  adjacent start end_ -> cell maze end_.1 end_.2 = Ok 0 ->
  exists st,
    find_path_fuel (S (S fuel)) maze start end_ = Finished true (Some st) /\
    best_goal_cost st = Some 1.
Proof.
  intros Hrect Hval Hadj Hcell.
  pose proof (validate_enters _ _ _ Hval) as (_ & Hbe & _ & _ & Hne).
  pose proof (get_neighbors_filter maze start Hrect) as Hns.
  set (ns := List.filter (walkable maze) (candidates start)) in Hns.
  set (st1 := {| open_set := [];
                 counter := counter (init_state start);
                 g_score := g_score (init_state start);
                 open_set_hash := open_set_hash (init_state start) ∖ {[ start ]};
                 best_goal_cost := None |}).
  set (s1 := fold_left (relax end_ 0) ns st1).
  assert (iter maze end_ (init_state start) = Continue s1) as Hiter.
  { unfold iter. simpl. rewrite lookup_singleton_eq.
    unfold goal_check. rewrite decide_False by done. simpl.
    by rewrite Hns. }
  assert (loop_state maze start end_ s1) as Hloop.
  { eapply loop_next; [by apply loop_enter|exact Hiter]. }
  destruct (first_iteration_fold maze start end_ ns st1) as [P1 P2];
    [|done|done| |].
  { rewrite Forall_forall. intros n Hn.
    by apply (elem_of_get_neighbors_Ok maze start n ns Hns) in Hn as [? _]. }
  { intros p. simpl. rewrite elem_of_difference. tauto. }
  fold s1 in P1, P2.
  assert (end_ ∈ ns) as Hend.
  { apply (elem_of_get_neighbors_Ok maze start end_ ns Hns). by split. }
  destruct (fold_relax_recorded end_ 0 ns st1 end_ Hend) as [v Hv].
  fold s1 in Hv.
  destruct (P2 end_ v Hv) as [[? _]|[-> [ke Hke]]]; [congruence|].
  replace (_heuristic end_ end_) with 0 in Hke
    by (unfold _heuristic; lia).
  destruct (open_set s1) as [|[[f k] p] rest] eqn:Hopen;
    [by apply elem_of_nil in Hke|].
  assert (p = end_) as ->.
  { specialize (P1 f k p (list_elem_of_here _ _)).
    apply elem_of_cons in Hke as [[= <- _ <-]|Hrest]; [done|].
    pose proof (loop_state_pops_least maze start end_ s1 (f, k, p) rest
                  Hloop) as Hleast.
    rewrite Hopen in Hleast. specialize (Hleast eq_refl _ Hrest).
    apply entry_leb_f in Hleast. apply heuristic_zero. lia. }
  pose proof (loop_state_goal _ _ _ _ Hloop) as Hgoal.
  destruct (goal_inv_pop_goal maze end_ s1 f k rest Hgoal Hopen)
    as [st' Hret].
  exists st'. split.
  - unfold find_path_fuel. rewrite Hval.
    change (search (S (S fuel)) maze end_ (init_state start))
      with (match iter maze end_ (init_state start) with
            | Continue s' => search (S fuel) maze end_ s'
            | Return b s' => Finished b (Some s')
            | Throw e => Raised e
            end).
    rewrite Hiter. simpl. by rewrite Hret.
  - apply iter_Return_true in Hret as (_ & _ & _ & g & _ & Hg & _ & Hbest & _);
      [|apply Hgoal].
    congruence.
Qed.

Lemma adjacent_endpoints_cost_one_witness :
  exists st,
    find_path_fuel 2 maze_small (1, 1) (1, 2) = Finished true (Some st) /\
    best_goal_cost st = Some 1.
Proof.
  apply (adjacent_endpoints_cost_one 0 maze_small (1, 1) (1, 2)).
  - repeat constructor.
  - vm_compute. reflexivity.
  - reflexivity.
  - reflexivity.
Defined.

(** ** The validation on any grid *)

(** X21: the validation of [find_path] on a grid that need not be
    rectangular: it raises nothing but [IndexError], and raises it exactly
    when both endpoints are in bounds (by the length of the first row) and
    either [start] lies beyond the end of its own row or the cell at
    [start] is read, is not 1, and [end_] lies beyond the end of its row;
    an [end_] in a short row behind a wall at [start] is never read. *)
Theorem validate_any_grid (maze : Maze) (start end_ : Pos) :
  (forall e, validate maze start end_ = Raise e ->
     e = IndexError /\
     forall fuel, find_path_fuel fuel maze start end_ = Raised IndexError) /\
  (validate maze start end_ = Raise IndexError <->
   in_bounds maze start = true /\ in_bounds maze end_ = true /\
   ((exists row, maze !! Z.to_nat start.1 = Some row /\
                 Z.of_nat (length row) <= start.2) \/
    (exists vs row, cell maze start.1 start.2 = Ok vs /\ vs <> 1 /\
                    maze !! Z.to_nat end_.1 = Some row /\
                    Z.of_nat (length row) <= end_.2))).
Proof.
  unfold find_path_fuel, validate.
  destruct (in_bounds maze start) eqn:Hs; simpl.
  2:{ split; [done|]. split; [done|]. by intros (? & _). }
  destruct (in_bounds maze end_) eqn:He; simpl.
  2:{ split; [done|]. split; [done|]. by intros (_ & ? & _). }
  pose proof (cell_in_bounds_Raise maze start Hs) as Hcs.
  pose proof (cell_in_bounds_Raise maze end_ He) as Hce.
  destruct (cell maze start.1 start.2) as [vs|es] eqn:Hvs; simpl.
  - assert (~ exists row, maze !! Z.to_nat start.1 = Some row /\
                          Z.of_nat (length row) <= start.2) as Hnot.
    { intros [e Habs]%Hcs. done. }
    destruct (vs =? 1) eqn:Hvs1.
    { apply Z.eqb_eq in Hvs1 as ->. split; [done|]. split; [done|].
      intros (_ & _ & [?|(vs & row & [= <-] & ? & _)]); exfalso; auto. }
    apply Z.eqb_neq in Hvs1.
    destruct (cell maze end_.1 end_.2) as [ve|ee] eqn:Hve; simpl.
    + assert (~ exists row, maze !! Z.to_nat end_.1 = Some row /\
                            Z.of_nat (length row) <= end_.2) as Hnote.
      { intros [e Habs]%Hce. done. }
      split; [by destruct (ve =? 1), (decide (start = end_))|].
      split; [by destruct (ve =? 1), (decide (start = end_))|].
      intros (_ & _ & [?|(vs' & row & _ & _ & ? & ?)]); exfalso; [auto|].
      apply Hnote. eauto.
    + pose proof (cell_raises_IndexError _ _ _ _ Hve) as ->.
      split; [intros e [= <-]; done|]. split; [|done]. intros _.
      split; [done|]. split; [done|]. right.
      destruct Hce as [(row & ? & ?) _]; [eauto|]. by exists vs, row.
  - pose proof (cell_raises_IndexError _ _ _ _ Hvs) as ->.
    split; [intros e [= <-]; done|]. split; [|done]. intros _.
    split; [done|]. split; [done|]. left. apply Hcs. eauto.
Qed.
